(** * Publish/subscribe protocol of POT: [python/lib/Protocol/Publish.py]

    A shallow embedding of the [Server] (publisher) and [Client]
    (subscriber) classes, followed by the properties of the publication
    sequencer, of the wire framing and of the callback dispatch.

    Conventions of the embedding.
    - Python [bytes] is [list byte].
    - Python [str] is a Rocq [string] holding the text in UTF-8, so that
      [str.encode()] keeps the underlying bytes and [bytes.decode()]
      succeeds exactly on well-formed UTF-8.
    - Python [int] is [Z] (unbounded).
    - A [dict] is a [gmap]; a [list] is a [list].
    - A method that mutates [self] takes the object and returns its new
      value; a raised exception is the [Raise] case of [result]. *)

From Stdlib Require Import ZArith Lia DecimalString.
From Stdlib Require DecimalPos DecimalZ.
From Stdlib Require Import Strings.String Strings.Ascii Strings.Byte.
From stdpp Require Import base option list countable gmap strings.

Local Open Scope Z_scope.

(** ** Python values shared by both classes *)

Abbreviation bytes := (list byte).
Abbreviation str := string.

Inductive exn : Type :=
| TypeError
| KeyError
| ValueError
| UnicodeDecodeError
| JsonDecodeError
| ZMQError
| CallbackError (code : nat).

Inductive result (A : Type) : Type :=
| Ok (a : A)
| Raise (e : exn).
Arguments Ok {A} a.
Arguments Raise {A} e.

#[global] Instance exn_eq_dec : EqDecision exn.
Proof. solve_decision. Defined.

#[global] Instance byte_eq_dec : EqDecision byte.
Proof.
  intros a b. destruct (Byte.eqb a b) eqn:E.
  - left. by apply Byte.byte_dec_bl.
  - right. intros ->. by rewrite (Byte.byte_dec_lb eq_refl) in E.
Defined.

#[global] Instance byte_countable : Countable byte :=
  inj_countable Byte.to_N Byte.of_N Byte.of_to_N.

(** [str.encode()]: the UTF-8 bytes of the text. *)
Definition encode (s : str) : bytes := list_byte_of_string s.

(** A bytes literal such as [b'bulk']. *)
Definition lit (s : string) : bytes := list_byte_of_string s.

(** [str(n)] for an [int]: its decimal numeral, with a leading minus
    sign when negative. *)
Definition str_of_int (n : Z) : str := NilZero.string_of_int (Z.to_int n).

(** ** class Server *)

Definition pub_id_min : Z := 0.
Definition pub_id_max : Z := 0xFFFFFFFF.

(** What is handed to [socket.send]: [publish] passes a [str] for the
    normal frame and [bytes] for the bulk frame. *)
Inductive frame : Type :=
| FStr (s : str)
| FBytes (x : bytes).

(** [pub_id] is the next value of the [itertools.count] iterator held in
    [self.pub_id]; [sent] lists what the socket has sent so far, oldest
    first. The lock is free between two calls and is
    not represented. *)
Record Server : Type := mkServer {
  pub_id : Z;
  sent : list frame
}.

(** [next(self.pub_id)]: yields the current value, the iterator moves on. *)
Definition count_next (s : Server) : Z * Server :=
  (pub_id s, mkServer (pub_id s + 1) (sent s)).

Definition pub_id_reset (s : Server) : Server :=
  mkServer pub_id_min (sent s).

(** [Server.__init__]: bind the socket, reset the sequencer. *)
Definition Server_init : Server := pub_id_reset (mkServer 0 []).

Definition pub_id_next (s : Server) : Z * Server :=
  let '(pub_id, s) := count_next s in
  if pub_id >=? pub_id_max then
    let s := pub_id_reset s in
    if pub_id >? pub_id_max then
      (* This shouldn't happen, but here we are... *)
      let pub_id := pub_id_min in
      let '(_, s) := count_next s in
      (pub_id, s)
    else (pub_id, s)
  else (pub_id, s).

(** The ids returned by [n] consecutive calls, and the server after them. *)
Fixpoint pub_id_calls (n : nat) (s : Server) : list Z * Server :=
  match n with
  | O => ([], s)
  | S n =>
      let '(i, s) := pub_id_next s in
      let '(l, s) := pub_id_calls n s in
      (i :: l, s)
  end.

(** An event is a [dict] with [str] keys. Its values are scalars that
    the structured-data codec can serialize (floats, lists and nested
    mappings are not represented; no operation below looks inside a
    value other than the topic). *)
Inductive value : Type :=
| VNone
| VBool (x : bool)
| VInt (n : Z)
| VStr (s : str).

Abbreviation event := (gmap string value).

(** [self.socket.send(x)] on the zmq socket of the server: [bytes] are
    sent; a [str] is refused with a [TypeError] and nothing is sent. *)
Definition socket_send (s : Server) (x : frame) : result unit * Server :=
  match x with
  | FBytes _ => (Ok tt, mkServer (pub_id s) (sent s ++ [x]))
  | FStr _ => (Raise TypeError, s)
  end.

Section Publisher.

(** Modelled from the spec: the structured-data collaborator [Json] is
    imported by the module but is not part of it; section 6 of the
    specification gives [serialize(mapping) -> string]. *)
Variable Json_dumps : event -> str.

(** [publish(self, message, bulk=None)]. The [dict] is passed by
    reference: the third component of the result is the content of the
    caller's mapping when the call exits, normally or not. A name that
    is not a [str] fails at [topic + ' '] with a [TypeError]; an
    exception raised by [send] leaves [publish] at once. *)
Definition publish (s : Server) (message : event) (bulk : option bytes)
  : result unit * Server * event :=
  let '(pub_id, s) := pub_id_next s in
  match message !! "name" with
  | None => (Raise KeyError, s, message)
  | Some topic =>
      let message := <["id" := VInt pub_id]> message in
      let message :=
        match bulk with
        | Some _ => <["bulk" := VBool true]> message
        | None => message
        end in
      match topic with
      | VStr topic =>
          match socket_send s (FStr (topic +:+ " " +:+ Json_dumps message)) with
          | (Raise e, s) => (Raise e, s, message)
          | (Ok _, s) =>
              match bulk with
              | Some bulk =>
                  let prefix :=
                    topic +:+ ";bulk " +:+ str_of_int pub_id +:+ " " in
                  let prefix := encode prefix in
                  let bulk_payload := prefix ++ bulk in
                  match socket_send s (FBytes bulk_payload) with
                  | (Raise e, s) => (Raise e, s, message)
                  | (Ok _, s) => (Ok tt, s, message)
                  end
              | None => (Ok tt, s, message)
              end
          end
      | _ => (Raise TypeError, s, message)
      end
  end.

End Publisher.

(** ** Python built-ins used by the Client *)

(** Whitespace for [bytes.split()]: the six ASCII blanks. *)
Definition isspace (c : byte) : bool :=
  match c with
  | x09 | x0a | x0b | x0c | x0d | x20 => true
  | _ => false
  end.

Fixpoint skip_space (s : bytes) : bytes :=
  match s with
  | c :: t => if isspace c then skip_space t else s
  | [] => []
  end.

(** The longest prefix without whitespace, and what follows it. *)
Fixpoint take_word (s : bytes) : bytes * bytes :=
  match s with
  | c :: t =>
      if isspace c then ([], s)
      else let '(w, rest) := take_word t in (c :: w, rest)
  | [] => ([], [])
  end.

(** [s.split(maxsplit=n)] with no separator: words are cut at runs of
    whitespace; after [n] cuts the remainder, less its leading
    whitespace, is kept whole if it is not empty. *)
Fixpoint bytes_split (maxsplit : nat) (s : bytes) : list bytes :=
  match skip_space s with
  | [] => []
  | c :: t =>
      match maxsplit with
      | O => [c :: t]
      | S n => let '(w, rest) := take_word (c :: t) in w :: bytes_split n rest
      end
  end.

Definition byte_in (lo hi : N) (c : byte) : bool :=
  ((lo <=? Byte.to_N c) && (Byte.to_N c <=? hi))%N.

(** Well-formed UTF-8 (Unicode table 3-7), as the strict codec checks it. *)
Fixpoint utf8_wellformed (s : bytes) : bool :=
  match s with
  | [] => true
  | c0 :: t0 =>
      if byte_in 0x00 0x7f c0 then utf8_wellformed t0 else
      match t0 with
      | [] => false
      | c1 :: t1 =>
          if byte_in 0xc2 0xdf c0 then byte_in 0x80 0xbf c1 && utf8_wellformed t1 else
          match t1 with
          | [] => false
          | c2 :: t2 =>
              if byte_in 0xe0 0xef c0 then
                (if byte_in 0xe0 0xe0 c0 then byte_in 0xa0 0xbf c1
                 else if byte_in 0xed 0xed c0 then byte_in 0x80 0x9f c1
                 else byte_in 0x80 0xbf c1)
                && byte_in 0x80 0xbf c2 && utf8_wellformed t2
              else
              match t2 with
              | [] => false
              | c3 :: t3 =>
                  if byte_in 0xf0 0xf4 c0 then
                    (if byte_in 0xf0 0xf0 c0 then byte_in 0x90 0xbf c1
                     else if byte_in 0xf4 0xf4 c0 then byte_in 0x80 0x8f c1
                     else byte_in 0x80 0xbf c1)
                    && byte_in 0x80 0xbf c2 && byte_in 0x80 0xbf c3
                    && utf8_wellformed t3
                  else false
              end
          end
      end
  end.

(** [bytes.decode()] *)
Definition decode (s : bytes) : result str :=
  if utf8_wellformed s then Ok (string_of_list_byte s)
  else Raise UnicodeDecodeError.

(** The characters for which [str.isspace()] holds, in UTF-8:
    U+0009..U+000D, U+001C..U+0020, U+0085, U+00A0, U+1680,
    U+2000..U+200A, U+2028, U+2029, U+202F, U+205F, U+3000. *)
Definition unicode_space : list bytes :=
  [ [x09]; [x0a]; [x0b]; [x0c]; [x0d]; [x1c]; [x1d]; [x1e]; [x1f]; [x20];
    [xc2; x85]; [xc2; xa0]; [xe1; x9a; x80];
    [xe2; x80; x80]; [xe2; x80; x81]; [xe2; x80; x82]; [xe2; x80; x83];
    [xe2; x80; x84]; [xe2; x80; x85]; [xe2; x80; x86]; [xe2; x80; x87];
    [xe2; x80; x88]; [xe2; x80; x89]; [xe2; x80; x8a];
    [xe2; x80; xa8]; [xe2; x80; xa9]; [xe2; x80; xaf];
    [xe2; x81; x9f]; [xe3; x80; x80] ].

Fixpoint strip_prefix (p s : bytes) : option bytes :=
  match p, s with
  | [], _ => Some s
  | c :: p, d :: s => if decide (c = d) then strip_prefix p s else None
  | _ :: _, [] => None
  end.

(** The first of the patterns [ps] that starts [s], removed from it. *)
Fixpoint strip_one (ps : list bytes) (s : bytes) : option bytes :=
  match ps with
  | [] => None
  | p :: ps =>
      match strip_prefix p s with
      | Some t => Some t
      | None => strip_one ps s
      end
  end.

Fixpoint strip_left (fuel : nat) (ps : list bytes) (s : bytes) : bytes :=
  match fuel with
  | O => s
  | S fuel =>
      match strip_one ps s with
      | Some t => strip_left fuel ps t
      | None => s
      end
  end.

(** [str.strip()]: whitespace characters removed at both ends. Every
    pattern is at least one byte long, so [length s] rounds suffice. *)
Definition str_strip (s : str) : str :=
  let x := list_byte_of_string s in
  let x := strip_left (length x) unicode_space x in
  let x := rev (strip_left (length x) (map (@rev byte) unicode_space) (rev x)) in
  string_of_list_byte x.

(** ** class Client *)

(** Modelled from the spec: [WeakRef.ref] is imported from the package
    but is not part of this module. A reference is a handle on a callable
    object and does not keep it alive: calling the reference yields the
    object, or [None] once the object is gone. The handle is the identity
    of the referent, and two references are equal when they are the same
    handle. *)
Abbreviation weakref := nat.

(** The first argument of [register]: an object that is callable, known
    by its identity, or one that is not. *)
Inductive object : Type :=
| Callable (id : nat)
| NotCallable.

Definition WeakRef_ref (id : nat) : weakref := id.

(** [subscriptions] are the [zmq.SUBSCRIBE] options set on the socket. *)
Record Client : Type := mkClient {
  subscriptions : list bytes;
  callback_all : list weakref;
  callback_specific : gmap bytes (list weakref);
  shutdown : bool
}.

(** [Client.__init__], up to the start of the thread that executes [run]. *)
Definition Client_init : Client := mkClient [] [] ∅ false.

Definition set_callback_all (c : Client) (l : list weakref) : Client :=
  mkClient (subscriptions c) l (callback_specific c) (shutdown c).

Definition set_callback_specific (c : Client) (m : gmap bytes (list weakref))
  : Client :=
  mkClient (subscriptions c) (callback_all c) m (shutdown c).

(** [subscribe(self, topic)]: a topic without a [decode] attribute (a
    [str]) is encoded first. *)
Definition subscribe (c : Client) (topic : str + bytes) : Client :=
  let topic :=
    match topic with
    | inr topic => topic
    | inl topic => encode topic
    end in
  mkClient (subscriptions c ++ [topic]) (callback_all c)
           (callback_specific c) (shutdown c).

(** [register(self, callback, topic=None)]. The list found under the
    topic, or the new one stored there, is the object that receives the
    [append]. *)
Definition register (c : Client) (callback : object) (topic : option str)
  : result unit * Client :=
  match callback with
  | NotCallable => (Raise TypeError, c)
  | Callable id =>
      let reference := WeakRef_ref id in
      match topic with
      | None =>
          let c := set_callback_all c (callback_all c ++ [reference]) in
          (Ok tt, subscribe c (inl EmptyString))
      | Some topic =>
          let topic := str_strip topic in
          let topic := encode topic in
          let callbacks :=
            match callback_specific c !! topic with
            | Some callbacks => callbacks
            | None => []
            end in
          let c := set_callback_specific c
                     (<[topic := callbacks ++ [reference]]> (callback_specific c)) in
          (Ok tt, subscribe c (inr topic))
      end
  end.

(** [references.remove(reference)]: the first equal element goes; a
    [ValueError] when there is none. *)
Fixpoint list_remove (x : weakref) (l : list weakref)
  : result (list weakref) :=
  match l with
  | [] => Raise ValueError
  | y :: l =>
      if decide (y = x) then Ok l
      else match list_remove x l with
           | Ok l => Ok (y :: l)
           | Raise e => Raise e
           end
  end.

(** [for reference in invalid: references.remove(reference)], with the
    list as the loop leaves it. *)
Fixpoint remove_invalid (invalid references : list weakref)
  : result unit * list weakref :=
  match invalid with
  | [] => (Ok tt, references)
  | reference :: invalid =>
      match list_remove reference references with
      | Ok references => remove_invalid invalid references
      | Raise e => (Raise e, references)
      end
  end.

Section Subscriber.

(** Modelled from the spec: the structured-data collaborator [Json] is
    not part of this module; section 6 of the specification gives
    [parse(string) -> mapping], failing on malformed input. [json] is
    the type of what it returns. *)
Variable json : Type.
Variable Json_loads : str -> result json.

(** What a callback receives: the parsed JSON, or the binary blob. *)
Inductive payload : Type :=
| Parsed (j : json)
| Raw (x : bytes).

(** A callable object, called with the message, returns or raises. What
    else it does, to the message or to the client, is not represented. *)
Definition callable : Type := payload -> result unit.

(** What [reference()] yields for each handle at the time of a
    dispatch: [None] when the referent is gone. *)
Definition referents : Type := weakref -> option callable.

(** What a dispatch does that can be observed from outside: the calls
    it makes and the tracebacks it prints. *)
Inductive output : Type :=
| Invoked (r : weakref) (message : payload)
| Printed (e : exn).

(** [topic, message = message.split(maxsplit=1)] and the parsing that
    follows it. *)
Definition parse (message : bytes) : result (bytes * payload) :=
  match bytes_split 1 message with
  | [topic; message] =>
      if bool_decide (drop (length topic - 4)%nat topic = lit "bulk") then
        Ok (topic, Raw message)
      else
        match decode message with
        | Raise e => Raise e
        | Ok message =>
            match Json_loads message with
            | Raise e => Raise e
            | Ok message => Ok (topic, Parsed message)
            end
        end
  | _ => Raise ValueError
  end.

(** [callback(message)], where [callback] may be [None]. *)
Definition call (callback : option callable) (r : weakref)
    (message : payload) : result unit * list output :=
  match callback with
  | None => (Raise TypeError, [])
  | Some f => (f message, [Invoked r message])
  end.

(** One round of the loop over [references]. *)
Definition visit (live : referents) (message : payload)
    (acc : list weakref * list output) (reference : weakref)
  : list weakref * list output :=
  let '(invalid, out) := acc in
  let callback := live reference in
  let invalid :=
    match callback with
    | None => invalid ++ [reference]
    | Some _ => invalid
    end in
  match call callback reference message with
  | (Ok _, o) => (invalid, out ++ o)
  | (Raise e, o) => (invalid, out ++ o ++ [Printed e])
  end.

(** [for reference in references: ...], from an empty [invalid]. *)
Definition visit_all (live : referents) (message : payload)
    (references : list weakref) : list weakref * list output :=
  fold_left (visit live message) references ([], []).

(** [propagate(self, message)] *)
Definition propagate (live : referents) (c : Client) (message : bytes)
  : result unit * Client * list output :=
  if bool_decide (callback_all c ≠ []) || bool_decide (callback_specific c ≠ ∅)
  then
    match parse message with
    | Raise e => (Raise e, c, [])
    | Ok (topic, message) =>
        let references := callback_all c in
        let '(invalid, out) := visit_all live message references in
        match remove_invalid invalid references with
        | (Raise e, references) => (Raise e, set_callback_all c references, out)
        | (Ok _, references) =>
            let c := set_callback_all c references in
            if bool_decide (callback_specific c ≠ ∅) then
              match callback_specific c !! topic with
              | None => (Ok tt, c, out)
              | Some references =>
                  let '(invalid, out2) := visit_all live message references in
                  match remove_invalid invalid references with
                  | (Raise e, references) =>
                      (Raise e,
                       set_callback_specific c
                         (<[topic := references]> (callback_specific c)),
                       out ++ out2)
                  | (Ok _, references) =>
                      if (length references =? 0)%nat then
                        (Ok tt,
                         set_callback_specific c
                           (delete topic (callback_specific c)),
                         out ++ out2)
                      else
                        (Ok tt,
                         set_callback_specific c
                           (<[topic := references]> (callback_specific c)),
                         out ++ out2)
                  end
              end
            else (Ok tt, c, out)
        end
    end
  else (Ok tt, c, []).

(** One [poller.poll(1000)] of the loop: the callables alive at that
    time, and the frame that [recv] returns when the socket is ready. *)
Record poll : Type := mkPoll {
  alive : referents;
  received : option bytes
}.

(** Where the thread that executes [run] stands. *)
Inductive thread : Type :=
| Running (c : Client)
| Stopped (c : Client)
| Died (e : exn) (c : Client).

(** [run(self)], over the polls observed so far: the loop returns when
    it reads a [shutdown] that is not [False], and an exception that
    leaves [propagate] leaves [run]. *)
Fixpoint run (c : Client) (polls : list poll) : thread * list output :=
  if shutdown c then (Stopped c, [])
  else
    match polls with
    | [] => (Running c, [])
    | p :: polls =>
        match received p with
        | None => run c polls
        | Some message =>
            match propagate (alive p) c message with
            | (Ok _, c, out) =>
                let '(t, out2) := run c polls in (t, out ++ out2)
            | (Raise e, c, out) => (Died e c, out)
            end
        end
    end.

(** The methods of the class, as calls made on one client. *)
Inductive method : Type :=
| CallRegister (callback : object) (topic : option str)
| CallSubscribe (topic : str + bytes)
| CallPropagate (live : referents) (message : bytes).

Definition invoke (c : Client) (m : method) : Client :=
  match m with
  | CallRegister callback topic => snd (register c callback topic)
  | CallSubscribe topic => subscribe c topic
  | CallPropagate live message => snd (fst (propagate live c message))
  end.

End Subscriber.

Arguments Parsed {json} j.
Arguments Raw {json} x.
Arguments Invoked {json} r message.
Arguments Printed {json} e.
Arguments mkPoll {json} alive received.
Arguments alive {json} p.
Arguments received {json} p.
Arguments CallRegister {json} callback topic.
Arguments CallSubscribe {json} topic.
Arguments CallPropagate {json} live message.
Arguments parse {json} Json_loads message.
Arguments call {json} callback r message.
Arguments visit {json} live message acc reference.
Arguments visit_all {json} live message references.
Arguments propagate {json} Json_loads live c message.
Arguments run {json} Json_loads c polls.
Arguments invoke {json} Json_loads c m.

(** ** Vocabulary of the properties *)

(** The event as [publish] leaves it. *)
Definition stamped (i : Z) (bulk : option bytes) (message : event) : event :=
  match bulk with
  | Some _ => <["bulk" := VBool true]> (<["id" := VInt i]> message)
  | None => <["id" := VInt i]> message
  end.

(** No whitespace among the bytes: what the framing asks of a topic. *)
Definition no_space (x : bytes) : Prop := Forall (λ c, isspace c = false) x.

(** The topic under which [register] files a callback. *)
Definition normalize (topic : option str) : option bytes :=
  (λ t, encode (str_strip t)) <$> topic.

(** The list registered under a topic, empty when the topic has no entry. *)
Definition specific_list (c : Client) (topic : bytes) : list weakref :=
  default [] (callback_specific c !! topic).

(** The client a thread state carries. *)
Definition thread_client (t : thread) : Client :=
  match t with
  | Running c | Stopped c | Died _ c => c
  end.

Section Observations.

Context {json : Type}.

Definition live_refs (live : referents json) (l : list weakref) : list weakref :=
  filter (λ r, is_Some (live r)) l.

Definition dead_refs (live : referents json) (l : list weakref) : list weakref :=
  filter (λ r, ¬ is_Some (live r)) l.

(** What one reference contributes to the output of a dispatch. *)
Definition outcome (live : referents json) (message : payload json)
    (r : weakref) : list (output json) :=
  match live r with
  | None => [Printed TypeError]
  | Some f =>
      Invoked r message ::
      match f message with
      | Ok _ => []
      | Raise e => [Printed e]
      end
  end.

(** The references whose callable was called, in the order of the calls. *)
Definition invoked (out : list (output json)) : list weakref :=
  omap (λ o, match o with Invoked r _ => Some r | Printed _ => None end) out.

(** The registries once the dead references met on [topic] are gone. *)
Definition pruned (live : referents json) (c : Client) (topic : bytes) : Client :=
  mkClient (subscriptions c) (live_refs live (callback_all c))
    (match callback_specific c !! topic with
     | None => callback_specific c
     | Some l =>
         match live_refs live l with
         | [] => delete topic (callback_specific c)
         | l' => <[topic := l']> (callback_specific c)
         end
     end)
    (shutdown c).

(** The reference a call adds under the key [k] ([None] for the
    all-topics list), if it adds one. *)
Definition registration (k : option bytes) (m : method json) : option weakref :=
  match m with
  | CallRegister (Callable id) topic =>
      if decide (normalize topic = k) then Some (WeakRef_ref id) else None
  | _ => None
  end.

(** The references filed under [k] by a history of calls, oldest first. *)
Definition registered (k : option bytes) (ms : list (method json))
  : list weakref :=
  omap (registration k) ms.

Definition is_register (m : method json) : Prop :=
  match m with
  | CallRegister _ _ => True
  | _ => False
  end.

(** Both registries list their references in the order of registration. *)
Definition in_registration_order (c : Client) (ms : list (method json)) : Prop :=
  callback_all c `sublist_of` registered None ms ∧
  ∀ t : bytes, specific_list c t `sublist_of` registered (Some t) ms.

End Observations.

(** ** A codec and a few objects for the examples *)

Definition quoted (s : str) : str :=
  String "034" (s +:+ String "034" EmptyString).

Definition dumps_value (v : value) : str :=
  match v with
  | VNone => "null"
  | VBool true => "true"
  | VBool false => "false"
  | VInt n => str_of_int n
  | VStr s => quoted s
  end.

(** A serializer for events whose strings need no escaping; the fields
    come in the order of the map. *)
Definition dumps_flat (e : event) : str :=
  "{" +:+ String.concat ", "
            (map (λ kv, quoted kv.1 +:+ ": " +:+ dumps_value kv.2) (map_to_list e))
      +:+ "}".

(** A parser for the JSON literals and for integers in decimal. *)
Definition loads_scalar (s : str) : result value :=
  if String.eqb s "null" then Ok VNone
  else if String.eqb s "true" then Ok (VBool true)
  else if String.eqb s "false" then Ok (VBool false)
  else
    match NilZero.int_of_string s with
    | Some d =>
        if String.eqb (str_of_int (Z.of_int d)) s then Ok (VInt (Z.of_int d))
        else Raise JsonDecodeError
    | None => Raise JsonDecodeError
    end.

Definition frame_event : event := {[ "name" := VStr "frame" ]}.
Definition frame_bulk : bytes := [x00; x01; x02].

(** Every callable is alive and returns. *)
Definition all_alive : referents value := λ _, Some (λ _, Ok tt).

(** Callable 0 is gone, 1 raises, the others return. *)
Definition some_alive : referents value :=
  λ r, match r with
       | O => None
       | S O => Some (λ _, Raise (CallbackError 1))
       | _ => Some (λ _, Ok tt)
       end.

(** A client with callable 0 registered for the topic [frame;bulk]. *)
Definition bulk_listener : Client :=
  (register Client_init (Callable 0) (Some "frame;bulk"%string)).2.

(** A history: 0 and 1 for [tick], 2 for all topics, 3 for [tick], 4 for
    all topics. *)
Definition tick_history : list (method value) :=
  [ CallRegister (Callable 0) (Some " tick"%string);
    CallRegister (Callable 1) (Some "tick"%string);
    CallRegister (Callable 2) None;
    CallRegister (Callable 3) (Some "tick "%string);
    CallRegister (Callable 4) None ].

Definition tick_listener : Client :=
  foldl (invoke loads_scalar) Client_init tick_history.

(** ** Further vocabulary *)

(** The number of publication ids: the sequencer counts modulo it. *)
Definition pub_id_count : Z := pub_id_max + 1.

(** The topic ends with the four bytes [bulk]: the test of [propagate]. *)
Definition bulk_topic (topic : bytes) : Prop :=
  drop (length topic - 4)%nat topic = lit "bulk".

(** The bytes of the bulk frame that [publish] builds. *)
Definition bulk_frame (topic : str) (i : Z) (bulk : bytes) : bytes :=
  encode (topic +:+ ";bulk " +:+ str_of_int i +:+ " ") ++ bulk.

Section PublishEach.

Variable Json_dumps : event -> str.

(** Consecutive [publish] calls on one server: the outcome of each call
    with the event as the call leaves it, and the server after them. *)
Fixpoint publish_each (s : Server) (calls : list (event * option bytes))
  : list (result unit * event) * Server :=
  match calls with
  | [] => ([], s)
  | (message, bulk) :: calls =>
      let '(r, s, message) := publish Json_dumps s message bulk in
      let '(l, s) := publish_each s calls in
      ((r, message) :: l, s)
  end.

End PublishEach.

(** ** The module: default port and connection pool *)

Definition default_port : Z := 10133.

(** [Client.__init__]: the address the socket connects to. *)
Definition Client_server (address : option str) (port : option Z) : str :=
  let address :=
    match address with
    | None => "localhost"%string
    | Some address => address
    end in
  let port :=
    match port with
    | None => default_port
    | Some port => port
    end in
  let port := str_of_int port in
  "tcp://" +:+ address +:+ ":" +:+ port.

(** [Server.__init__]: the address the socket binds. *)
Definition Server_port (port : option Z) : str :=
  let port :=
    match port with
    | None => default_port
    | Some port => port
    end in
  "tcp://*:" +:+ str_of_int port.

(** The module at run time. [clients] holds every [Client] built so far,
    with the address it connected to; an instance is known by its
    position there, and the thread that executes its [run] keeps it
    alive. [client_connections] is the dictionary of the module, keyed by
    the arguments of the factory as they were given. *)
Record Process : Type := mkProcess {
  client_connections : gmap (option str * option Z) nat;
  clients : list (str * Client)
}.

(** The module when it has just been imported. *)
Definition Process_init : Process := mkProcess ∅ [].

Section Pool.

(** Modelled from the spec: the transport is not part of this module;
    section 6 of the specification lists [connect(address, port)] among
    its operations and section 7 its failure. [zmq_connect] is
    [socket.connect] on a new SUB socket: it accepts the address or
    raises. *)
Variable zmq_connect : str -> result unit.

(** [Client(address, port)]: the address connected to and the new object,
    unless [connect] raises, which leaves [__init__] before the
    registries are made and the thread is started. *)
Definition Client_new (address : option str) (port : option Z)
  : result (str * Client) :=
  let server := Client_server address port in
  match zmq_connect server with
  | Raise e => Raise e
  | Ok _ => Ok (server, Client_init)
  end.

(** [client(address=None, port=None)]: the instance on record for the
    pair, or a new one, put on record; when the construction raises,
    nothing is put on record. *)
Definition client (p : Process) (address : option str) (port : option Z)
  : result nat * Process :=
  match client_connections p !! (address, port) with
  | Some instance => (Ok instance, p)
  | None =>
      match Client_new address port with
      | Raise e => (Raise e, p)
      | Ok object =>
          let instance := length (clients p) in
          (Ok instance,
           mkProcess (<[(address, port) := instance]> (client_connections p))
                     (clients p ++ [object]))
      end
  end.

End Pool.

(** The module-level [shutdown()], registered with [atexit]:
    [client_connections.clear()]. *)
Definition module_shutdown (p : Process) : Process :=
  mkProcess ∅ (clients p).

Section ProcessCalls.

Context {json : Type}.
Variable Json_loads : str -> result json.
Variable zmq_connect : str -> result unit.

(** What a program does with the module: ask for a client, call a method
    of an instance it holds, or run the exit handler. *)
Inductive process_call : Type :=
| AskClient (address : option str) (port : option Z)
| OnInstance (instance : nat) (m : method json)
| AtExit.

Definition process_step (p : Process) (k : process_call) : Process :=
  match k with
  | AskClient address port => (client zmq_connect p address port).2
  | OnInstance instance m =>
      match clients p !! instance with
      | Some (server, c) =>
          mkProcess (client_connections p)
                    (<[instance := (server, invoke Json_loads c m)]> (clients p))
      | None => p
      end
  | AtExit => module_shutdown p
  end.

End ProcessCalls.

Arguments AskClient {json} address port.
Arguments OnInstance {json} instance m.
Arguments AtExit {json}.

(** The subscription a call sets on the socket, if it sets one. *)
Definition subscription {json : Type} (m : method json) : option bytes :=
  match m with
  | CallRegister (Callable _) topic =>
      Some (match normalize topic with Some t => t | None => [] end)
  | CallSubscribe (inl topic) => Some (encode topic)
  | CallSubscribe (inr topic) => Some topic
  | _ => None
  end.

(** What holds of the module whatever the program did with it: a pair on
    record stands for an instance that exists and that was connected
    to the address the pair gives, which [connect] accepts; two pairs
    never share an instance; and every instance has its flag at
    [False]. *)
Definition pool_ok (zmq_connect : str -> result unit) (p : Process) : Prop :=
  (∀ (address : option str) (port : option Z) (i : nat),
     client_connections p !! (address, port) = Some i →
     zmq_connect (Client_server address port) = Ok tt ∧
     ∃ c, clients p !! i = Some (Client_server address port, c)) ∧
  (∀ (k1 k2 : option str * option Z) (i : nat),
     client_connections p !! k1 = Some i →
     client_connections p !! k2 = Some i → k1 = k2) ∧
  Forall (λ sc, shutdown sc.2 = false) (clients p).

(** A transport for the examples: it refuses the address of port -1 on
    the local host and accepts the others. *)
Definition connect_example (server : str) : result unit :=
  if String.eqb server "tcp://localhost:-1" then Raise ZMQError else Ok tt.

(** * Properties *)

(** ** The publication sequencer *)

Section Sequencer.

Implicit Types (s : Server) (i j : Z).

(** The three cases of [pub_id_next], by the value the counter holds. *)
Lemma pub_id_next_eq s :
  pub_id_next s =
    if pub_id s <? pub_id_max then
      (pub_id s, mkServer (pub_id s + 1) (sent s))
    else if pub_id s =? pub_id_max then
      (pub_id_max, mkServer pub_id_min (sent s))
    else (pub_id_min, mkServer (pub_id_min + 1) (sent s)).
Proof.
  unfold pub_id_next, count_next, pub_id_reset; simpl.
  destruct (Z.ltb_spec (pub_id s) pub_id_max),
           (Z.geb_spec (pub_id s) pub_id_max); try lia; try reflexivity.
  destruct (Z.gtb_spec (pub_id s) pub_id_max),
           (Z.eqb_spec (pub_id s) pub_id_max) as [Heq|]; try lia; try reflexivity.
  by rewrite Heq.
Qed.

Lemma pub_id_next_sent s : sent (pub_id_next s).2 = sent s.
Proof. rewrite pub_id_next_eq. by repeat case_match. Qed.

Lemma pub_id_next_moves s : pub_id (pub_id_next s).2 ≠ pub_id s.
Proof.
  rewrite pub_id_next_eq.
  repeat case_match; simpl; unfold pub_id_max, pub_id_min in *; lia.
Qed.

Lemma pub_id_next_twice s :
  let i := (pub_id_next s).1 in
  let j := (pub_id_next (pub_id_next s).2).1 in
  (i < pub_id_max ∧ j = i + 1) ∨ (i = pub_id_max ∧ j = pub_id_min).
Proof.
  cbv zeta. rewrite (pub_id_next_eq s).
  destruct (Z.ltb_spec (pub_id s) pub_id_max).
  - rewrite pub_id_next_eq; simpl.
    destruct (Z.ltb_spec (pub_id s + 1) pub_id_max); simpl; [lia|].
    destruct (Z.eqb_spec (pub_id s + 1) pub_id_max); simpl; lia.
  - destruct (Z.eqb_spec (pub_id s) pub_id_max); simpl; [by right|].
    left. by compute.
Qed.

Lemma pub_id_calls_S (n : nat) s :
  pub_id_calls (S n) s =
    ((pub_id_next s).1 :: (pub_id_calls n (pub_id_next s).2).1,
     (pub_id_calls n (pub_id_next s).2).2).
Proof.
  simpl. destruct (pub_id_next s) as [i s1]; simpl.
  by destruct (pub_id_calls n s1).
Qed.

(** Every id returned lies between the minimum and the maximum. *)
Lemma pub_id_next_range s :
  0 <= pub_id s → pub_id_min <= (pub_id_next s).1 <= pub_id_max.
Proof.
  intros Hs. rewrite pub_id_next_eq.
  repeat case_match; simpl; unfold pub_id_max, pub_id_min in *; lia.
Qed.

(** C3. In any run of consecutive [pub_id_next] calls on one server, an
    id below the maximum 0xFFFFFFFF is followed by the next integer, so
    the ids increase strictly and never repeat, and the maximum is
    followed by the minimum 0. *)
Theorem pub_id_next_increasing_until_wrap s (n k : nat) i j :
  (pub_id_calls n s).1 !! k = Some i →
  (pub_id_calls n s).1 !! S k = Some j →
  (i < pub_id_max ∧ i < j ∧ j = i + 1) ∨ (i = pub_id_max ∧ j = pub_id_min).
Proof.
  revert s k. induction n as [|n IH]; intros s k Hi Hj; [done|].
  rewrite pub_id_calls_S in Hi, Hj; simpl in Hi, Hj.
  destruct k as [|k].
  - destruct n as [|n]; [done|].
    rewrite pub_id_calls_S in Hj; simpl in Hi, Hj.
    injection Hi as <-. injection Hj as <-.
    destruct (pub_id_next_twice s) as [[? ?]|[? ?]]; [left|right]; lia.
  - exact (IH _ _ Hi Hj).
Qed.

(** Three calls from 0xFFFFFFFE: the last two ids are the maximum and
    the minimum. *)
Lemma pub_id_next_wrap_example :
  (pub_id_calls 3 (mkServer 0xFFFFFFFE [])).1 = [0xFFFFFFFE; 0xFFFFFFFF; 0] ∧
  ((0xFFFFFFFF < pub_id_max ∧ 0xFFFFFFFF < 0 ∧ 0 = 0xFFFFFFFF + 1) ∨
   (0xFFFFFFFF = pub_id_max ∧ 0 = pub_id_min)).
Proof.
  split; [reflexivity|].
  apply (pub_id_next_increasing_until_wrap (mkServer 0xFFFFFFFE []) 3 1);
    reflexivity.
Defined.

End Sequencer.

(** ** The publisher *)

Lemma encode_app (s t : str) : encode (s +:+ t) = encode s ++ encode t.
Proof.
  unfold encode, list_byte_of_string.
  induction s as [|c s IH]; simpl; [done|]. by rewrite IH.
Qed.

Section PublisherFacts.

Variable Json_dumps : event -> str.

Implicit Types (s : Server) (message : event) (topic : str).

(** Whatever happens after the lookup of the name, the event is stamped. *)
Lemma publish_event s message (bulk : option bytes) :
  is_Some (message !! "name") →
  (publish Json_dumps s message bulk).2 = stamped (pub_id_next s).1 bulk message.
Proof.
  intros [topic Ht]. unfold publish, stamped.
  destruct (pub_id_next s) as [i s1]; simpl. rewrite Ht.
  destruct topic, bulk; reflexivity.
Qed.

Lemma stamped_id (i : Z) (bulk : option bytes) message :
  stamped i bulk message !! "id" = Some (VInt i).
Proof.
  unfold stamped. destruct bulk.
  - by rewrite lookup_insert_ne, lookup_insert_eq.
  - by rewrite lookup_insert_eq.
Qed.

(** C4, as the code has it. When the event has a name (a string, the
    topic), [publish] builds the text of the normal frame, the topic, a
    space and the serialized event, and hands it to [send] as a [str]:
    the socket refuses it with a [TypeError]. The call ends there, with
    no frame sent, neither the normal one nor the bulk one, the id spent
    and the event stamped. *)
Theorem publish_refused_at_send s message topic (bulk : option bytes) :
  message !! "name" = Some (VStr topic) →
  publish Json_dumps s message bulk =
    (Raise TypeError, (pub_id_next s).2,
     stamped (pub_id_next s).1 bulk message) ∧
  sent (pub_id_next s).2 = sent s.
Proof.
  intros Ht. split; [|apply pub_id_next_sent].
  unfold publish, stamped. destruct (pub_id_next s) as [i s1]; simpl.
  rewrite Ht. by destruct bulk.
Qed.

(** C5. When the event has a name, [publish] changes the caller's mapping
    in place: [id] becomes the fresh publication id, whatever it was;
    [bulk] is set to true when a bulk payload is given and is left as it
    was when none is; every other field keeps its value. *)
Theorem publish_stamps_event s message (bulk : option bytes) :
  is_Some (message !! "name") →
  let i := (pub_id_next s).1 in
  let message' := (publish Json_dumps s message bulk).2 in
  message' !! "id" = Some (VInt i) ∧
  (is_Some bulk → message' !! "bulk" = Some (VBool true)) ∧
  (bulk = None → message' !! "bulk" = message !! "bulk") ∧
  (∀ k : string, k ≠ "id" → k ≠ "bulk" → message' !! k = message !! k).
Proof.
  intros Hname. cbv zeta. rewrite (publish_event _ _ _ Hname).
  split; [apply stamped_id|].
  unfold stamped. destruct bulk as [x|]; repeat split.
  - intros _. by rewrite lookup_insert_eq.
  - done.
  - intros k Hid Hbulk. by rewrite !lookup_insert_ne.
  - by intros [? ?].
  - intros _. by rewrite lookup_insert_ne.
  - intros k Hid Hbulk. by rewrite lookup_insert_ne.
Qed.

(** C9. When the event has no name, [publish] raises [KeyError] with the
    event untouched and nothing sent, yet the sequencer has moved: the id
    it handed out is spent, and the [publish] call that follows, on an
    event with a name, stamps another id. *)
Theorem publish_without_name s message (bulk : option bytes) :
  message !! "name" = None →
  let i := (pub_id_next s).1 in
  let s1 := (pub_id_next s).2 in
  publish Json_dumps s message bulk = (Raise KeyError, s1, message) ∧
  sent s1 = sent s ∧
  pub_id s1 ≠ pub_id s ∧
  ∀ (message2 : event) (bulk2 : option bytes),
    is_Some (message2 !! "name") →
    ∃ j : Z,
      (publish Json_dumps s1 message2 bulk2).2 !! "id" = Some (VInt j) ∧ j ≠ i.
Proof.
  intros Hname. cbv zeta. split; [|split; [|split]].
  - unfold publish. destruct (pub_id_next s) as [i s1]. by rewrite Hname.
  - apply pub_id_next_sent.
  - apply pub_id_next_moves.
  - intros message2 bulk2 Hn2.
    exists (pub_id_next (pub_id_next s).2).1. split.
    + rewrite (publish_event _ _ _ Hn2). apply stamped_id.
    + destruct (pub_id_next_twice s) as [[? ?]|[? ?]];
        unfold pub_id_max, pub_id_min in *; lia.
Qed.

End PublisherFacts.

(** [publish] on the event [{name: frame}] with three bulk bytes, the
    sequencer standing at 5: [TypeError], nothing sent. *)
Lemma publish_refused_at_send_example :
  publish dumps_flat (mkServer 5 []) frame_event (Some frame_bulk)
    = (Raise TypeError, mkServer 6 [],
       stamped 5 (Some frame_bulk) frame_event) ∧
  sent (mkServer 6 []) = sent (mkServer 5 []).
Proof.
  apply (publish_refused_at_send dumps_flat (mkServer 5 []) frame_event
           "frame" (Some frame_bulk)).
  vm_compute; reflexivity.
Defined.

(** The same event published without a bulk payload: [id] is stamped and
    nothing else changes. *)
Lemma publish_stamps_event_example :
  let message' := (publish dumps_flat (mkServer 5 []) frame_event None).2 in
  message' !! "id" = Some (VInt 5) ∧
  (is_Some (@None bytes) → message' !! "bulk" = Some (VBool true)) ∧
  (@None bytes = None → message' !! "bulk" = frame_event !! "bulk") ∧
  (∀ k : string, k ≠ "id" → k ≠ "bulk" → message' !! k = frame_event !! k).
Proof.
  apply (publish_stamps_event dumps_flat (mkServer 5 []) frame_event None).
  exists (VStr "frame"). vm_compute; reflexivity.
Defined.

(** An event without a name, the sequencer standing at 5: the id 5 is
    spent and the next call stamps 6. *)
Lemma publish_without_name_example :
  publish dumps_flat (mkServer 5 []) {[ "value" := VInt 1 ]} None
    = (Raise KeyError, mkServer 6 [], {[ "value" := VInt 1 ]}) ∧
  ∃ j : Z,
    (publish dumps_flat (mkServer 6 []) frame_event None).2 !! "id"
      = Some (VInt j) ∧ j ≠ 5.
Proof.
  destruct (publish_without_name dumps_flat (mkServer 5 [])
              {[ "value" := VInt 1 ]} None) as (H1 & _ & _ & H2).
  { vm_compute; reflexivity. }
  split; [exact H1|].
  apply (H2 frame_event None). exists (VStr "frame"). vm_compute; reflexivity.
Defined.

(** ** Framing: what [split] makes of a bulk frame *)

Lemma take_word_app (w rest : bytes) (c : byte) :
  no_space w → isspace c = true →
  take_word (w ++ c :: rest) = (w, c :: rest).
Proof.
  intros Hw Hc. induction Hw as [|d w Hd Hw IH]; simpl.
  - by rewrite Hc.
  - by rewrite Hd, IH.
Qed.

Lemma skip_space_word (c : byte) (t : bytes) :
  isspace c = false → skip_space (c :: t) = c :: t.
Proof. intros Hc. simpl. by rewrite Hc. Qed.

(** A word, one space and a body that starts with a visible character
    are cut into the word and the whole body. *)
Lemma bytes_split_frame (c d : byte) (w body : bytes) :
  no_space (c :: w) → isspace d = false →
  bytes_split 1 ((c :: w) ++ lit " " ++ d :: body) = [c :: w; d :: body].
Proof.
  intros Hw Hd. pose proof Hw as Hw'. apply Forall_cons in Hw' as [Hc _].
  unfold bytes_split at 1. cbn [app]. rewrite (skip_space_word _ _ Hc).
  change (c :: w ++ lit " " ++ d :: body) with ((c :: w) ++ x20 :: d :: body).
  rewrite take_word_app by done.
  simpl. by rewrite Hd.
Qed.

(** A decimal numeral starts with a digit or a minus sign. *)
Lemma str_of_int_head (i : Z) :
  ∃ (d : byte) (ds : bytes), encode (str_of_int i) = d :: ds ∧ isspace d = false.
Proof.
  unfold str_of_int, encode.
  destruct (Z.to_int i) as [u|u]; simpl.
  - destruct u; simpl; eauto.
  - eauto.
Qed.

Lemma bulk_suffix (t : bytes) :
  drop (length (t ++ lit ";bulk") - 4)%nat (t ++ lit ";bulk") = lit "bulk".
Proof.
  rewrite length_app.
  replace (length t + length (lit ";bulk") - 4)%nat with (length t + 1)%nat
    by (simpl; lia).
  by rewrite drop_app_add.
Qed.

Section Framing.

Context {json : Type}.
Variable Json_loads : str -> result json.

(** The bulk frame of a topic without whitespace splits after [;bulk];
    what follows, the id included, is kept as raw bytes, and the parser
    is not consulted. *)
Lemma parse_bulk_frame (topic : bytes) (i : Z) (bulk : bytes) :
  no_space topic →
  parse Json_loads
    (topic ++ lit ";bulk " ++ encode (str_of_int i) ++ lit " " ++ bulk)
  = Ok (topic ++ lit ";bulk", Raw (encode (str_of_int i) ++ lit " " ++ bulk)).
Proof.
  intros Ht. destruct (str_of_int_head i) as (d & ds & -> & Hd).
  assert (∃ c w, topic ++ lit ";bulk" = c :: w ∧ no_space (c :: w))
    as (c & w & Hcw & Hw).
  { assert (no_space (topic ++ lit ";bulk")) as H.
    { apply Forall_app. split; [done|]. by repeat constructor. }
    destruct (topic ++ lit ";bulk") eqn:E; [by destruct topic|eauto]. }
  unfold parse.
  replace (topic ++ lit ";bulk " ++ (d :: ds) ++ lit " " ++ bulk)
    with ((c :: w) ++ lit " " ++ d :: (ds ++ lit " " ++ bulk)).
  2:{ rewrite <- Hcw, <- !app_assoc. done. }
  rewrite bytes_split_frame by done.
  rewrite <- Hcw, bulk_suffix, bool_decide_true by done.
  done.
Qed.

End Framing.

(** ** Dispatch *)

Section Dispatch.

Context {json : Type}.
Variable Json_loads : str -> result json.

Implicit Types (live : referents json) (message : payload json).
Implicit Types (l invalid : list weakref) (r : weakref) (c : Client).
Implicit Types (out : list (output json)).

Lemma visit_eq live message invalid out r :
  visit live message (invalid, out) r =
    (invalid ++ dead_refs live [r], out ++ outcome live message r).
Proof.
  unfold visit, call, outcome, dead_refs.
  destruct (live r) as [f|] eqn:Hr.
  - rewrite filter_cons_False by (intros H; apply H; by rewrite Hr).
    rewrite filter_nil, app_nil_r.
    destruct (f message); simpl; by rewrite ?app_nil_r.
  - rewrite filter_cons_True by (rewrite Hr; by intros [? ?]).
    by rewrite filter_nil.
Qed.

Lemma visit_all_from live message l invalid out :
  fold_left (visit live message) l (invalid, out) =
    (invalid ++ dead_refs live l, out ++ flat_map (outcome live message) l).
Proof.
  revert invalid out. induction l as [|r l IH]; intros invalid out;
    cbn [fold_left flat_map].
  - by rewrite !app_nil_r.
  - rewrite visit_eq, IH, <- !app_assoc. f_equal.
    unfold dead_refs. by rewrite <- filter_app.
Qed.

(** The first loop collects the dead references and calls the others. *)
Lemma visit_all_eq live message l :
  visit_all live message l =
    (dead_refs live l, flat_map (outcome live message) l).
Proof. unfold visit_all. by rewrite visit_all_from. Qed.

Lemma remove_invalid_skip invalid r l l' :
  r ∉ invalid →
  remove_invalid invalid l = (Ok tt, l') →
  remove_invalid invalid (r :: l) = (Ok tt, r :: l').
Proof.
  revert l. induction invalid as [|x invalid IH]; intros l Hr H; simpl in *.
  - by injection H as ->.
  - apply not_elem_of_cons in Hr as [Hx Hr].
    destruct (decide (r = x)) as [->|_]; [done|].
    destruct (list_remove x l) as [l1|e]; [|done]. by apply IH.
Qed.

(** The second loop finds every reference it removes: no [ValueError],
    and the live references stay, in their order. *)
Lemma remove_invalid_dead live l :
  remove_invalid (dead_refs live l) l = (Ok tt, live_refs live l).
Proof.
  unfold dead_refs, live_refs. induction l as [|r l IH]; [done|].
  destruct (decide (is_Some (live r))) as [Hr|Hr].
  - rewrite filter_cons_False by tauto. rewrite filter_cons_True by done.
    apply remove_invalid_skip; [|done].
    rewrite list_elem_of_filter. tauto.
  - rewrite filter_cons_True by done. rewrite filter_cons_False by done.
    simpl. by rewrite decide_True.
Qed.

Lemma invoked_outcomes live message l :
  invoked (flat_map (outcome live message) l) = live_refs live l.
Proof.
  unfold live_refs, invoked. induction l as [|r l IH]; [done|].
  simpl. rewrite omap_app, IH. unfold outcome.
  destruct (live r) as [f|] eqn:Hr.
  - rewrite filter_cons_True by (by rewrite Hr).
    by destruct (f message).
  - rewrite filter_cons_False by (rewrite Hr; by intros [? ?]). done.
Qed.

Lemma invoked_in_outcomes live message l r (m' : payload json) :
  Invoked r m' ∈ flat_map (outcome live message) l →
  r ∈ l ∧ is_Some (live r) ∧ m' = message.
Proof.
  rewrite list_elem_of_In, in_flat_map. intros (r' & Hr' & Hin).
  apply list_elem_of_In in Hr'. unfold outcome in Hin.
  destruct (live r') as [f|] eqn:Hf.
  - destruct Hin as [Heq|Hin].
    + injection Heq as -> ->. rewrite Hf. eauto.
    + destruct (f message); simpl in Hin; [done|].
      by destruct Hin.
  - destruct Hin as [?|[]]. done.
Qed.

Lemma printed_in_outcomes live message l r (f : callable json) (e : exn) :
  r ∈ l → live r = Some f → f message = Raise e →
  Printed e ∈ flat_map (outcome live message) l.
Proof.
  intros Hr Hf He. rewrite list_elem_of_In, in_flat_map.
  exists r. split; [by apply list_elem_of_In|].
  unfold outcome. rewrite Hf, He. simpl. auto.
Qed.

(** What [propagate] does to a frame that parses: it returns, each
    reference of the all-topics list and then of the topic's list has
    contributed its outcome, and the dead ones are gone. *)
Lemma propagate_parsed live c (frame topic : bytes) message :
  parse Json_loads frame = Ok (topic, message) →
  propagate Json_loads live c frame =
    (Ok tt, pruned live c topic,
     flat_map (outcome live message) (callback_all c ++ specific_list c topic)).
Proof.
  intros Hp. unfold propagate, pruned, specific_list.
  destruct c as [subs all spec sd]; simpl.
  assert (Hne : ∀ (A : Type) `{EqDecision A} (x y : A),
             bool_decide (x ≠ y) = negb (bool_decide (x = y))).
  { intros A ? x y. by repeat case_bool_decide. }
  rewrite !Hne, Hp, visit_all_eq, remove_invalid_dead. simpl. rewrite ?Hne.
  destruct (decide (spec = ∅)) as [->|Hspec].
  - rewrite lookup_empty, (bool_decide_true (∅ = ∅)) by done. simpl.
    rewrite app_nil_r.
    case_bool_decide as Hall; simpl; [done|].
    by subst all.
  - rewrite (bool_decide_false _ Hspec), orb_true_r. simpl.
    destruct (spec !! topic) as [l|] eqn:Hl; simpl; [|by rewrite app_nil_r].
    rewrite visit_all_eq, remove_invalid_dead, flat_map_app.
    by destruct (live_refs live l).
Qed.

(** A frame that does not parse, with somebody listening: the exception
    leaves [propagate] before anything else is done. *)
Lemma propagate_unparsed live c (frame : bytes) (e : exn) :
  callback_all c ≠ [] ∨ callback_specific c ≠ ∅ →
  parse Json_loads frame = Raise e →
  propagate Json_loads live c frame = (Raise e, c, []).
Proof.
  intros H Hp. unfold propagate. rewrite Hp.
  destruct H as [H|H]; rewrite (bool_decide_true _ H); simpl; [done|].
  by rewrite orb_true_r.
Qed.

(** Nobody listening: the frame is dropped unread. *)
Lemma propagate_idle live c (frame : bytes) :
  callback_all c = [] → callback_specific c = ∅ →
  propagate Json_loads live c frame = (Ok tt, c, []).
Proof.
  intros H1 H2. unfold propagate.
  rewrite (bool_decide_false (callback_all c ≠ [])) by tauto.
  by rewrite (bool_decide_false (callback_specific c ≠ ∅)) by tauto.
Qed.

Lemma pruned_lookup live c (topic : bytes) l :
  callback_specific c !! topic = Some l →
  callback_specific (pruned live c topic) !! topic =
    if decide (live_refs live l = []) then None else Some (live_refs live l).
Proof.
  intros Hl. unfold pruned. simpl. rewrite Hl.
  destruct (live_refs live l) as [|r l'].
  - by rewrite lookup_delete_eq.
  - by rewrite lookup_insert_eq.
Qed.

Lemma pruned_lookup_ne live c (topic t : bytes) :
  t ≠ topic →
  callback_specific (pruned live c topic) !! t = callback_specific c !! t.
Proof.
  intros Ht. unfold pruned. simpl.
  destruct (callback_specific c !! topic) as [l|]; [|done].
  destruct (live_refs live l).
  - by rewrite lookup_delete_ne.
  - by rewrite lookup_insert_ne.
Qed.

Lemma dead_not_live live l r : live r = None → r ∉ live_refs live l.
Proof.
  intros Hr. unfold live_refs. rewrite list_elem_of_filter, Hr.
  by intros [[? ?] _].
Qed.

Lemma dead_shortens live l r :
  live r = None → r ∈ l → (length (live_refs live l) < length l)%nat.
Proof.
  intros Hr Hin. apply (length_filter_lt _ _ r); [done|].
  rewrite Hr. by intros [? ?].
Qed.

(** C6. A reference registered for all topics or for the topic of the
    message, whose callable is gone when the message is dispatched: the
    dispatch returns without raising, the callable is not called, and
    the reference is removed. The all-topics list keeps its live
    references only; so does the topic's list, whose entry is deleted
    from the mapping when no reference is left; a list that held the
    dead reference is shorter afterwards. *)
Theorem propagate_prunes_dead live c (frame topic : bytes) message r :
  parse Json_loads frame = Ok (topic, message) →
  live r = None →
  r ∈ callback_all c ++ specific_list c topic →
  ∃ (c' : Client) (out : list (output json)),
    propagate Json_loads live c frame = (Ok tt, c', out) ∧
    (∀ m' : payload json, (Invoked r m') ∉ out) ∧
    callback_all c' = live_refs live (callback_all c) ∧
    (r ∉ callback_all c') ∧
    (r ∈ callback_all c →
     (length (callback_all c') < length (callback_all c))%nat) ∧
    (∀ l, callback_specific c !! topic = Some l →
       callback_specific c' !! topic =
         (if decide (live_refs live l = []) then None
          else Some (live_refs live l)) ∧
       (r ∉ live_refs live l) ∧
       (r ∈ l → (length (live_refs live l) < length l)%nat)).
Proof.
  intros Hp Hr Hin. eexists _, _. split; [by apply propagate_parsed|].
  repeat split.
  - intros m' Hm'. apply invoked_in_outcomes in Hm' as (_ & [f Hf] & _).
    congruence.
  - by apply dead_not_live.
  - by apply dead_shortens.
  - by apply pruned_lookup.
  - by apply dead_not_live.
  - by apply dead_shortens.
Qed.

(** C7. When a message is dispatched, a callback that raises has its
    traceback printed and the exception goes no further: the dispatch
    returns, and every live callback registered for all topics or for the
    topic of the message is called with the message, whichever of them
    raise. *)
Theorem propagate_contains_failures live c (frame topic : bytes) message :
  parse Json_loads frame = Ok (topic, message) →
  ∃ (c' : Client) (out : list (output json)),
    propagate Json_loads live c frame = (Ok tt, c', out) ∧
    invoked out =
      live_refs live (callback_all c) ++ live_refs live (specific_list c topic) ∧
    (∀ r (m' : payload json), Invoked r m' ∈ out → m' = message) ∧
    (∀ r (f : callable json) (e : exn),
       r ∈ callback_all c ++ specific_list c topic →
       live r = Some f → f message = Raise e → Printed e ∈ out).
Proof.
  intros Hp. eexists _, _. split; [by apply propagate_parsed|].
  repeat split.
  - rewrite invoked_outcomes. apply filter_app.
  - intros r m' Hm'. by apply invoked_in_outcomes in Hm' as (_ & _ & ->).
  - intros r f e. apply printed_in_outcomes.
Qed.

End Dispatch.

(** A message for [tick] reaches the client of [tick_history] when
    callable 0, registered for [tick], is gone and callable 1 raises. *)
Lemma propagate_prunes_dead_example :
  ∃ (c' : Client) (out : list (output value)),
    propagate loads_scalar some_alive tick_listener (lit "tick 17")
      = (Ok tt, c', out) ∧
    (∀ m' : payload value, (Invoked 0%nat m') ∉ out) ∧
    specific_list tick_listener (lit "tick") = [0; 1; 3]%nat ∧
    specific_list c' (lit "tick") = [1; 3]%nat.
Proof.
  destruct (propagate_prunes_dead loads_scalar some_alive tick_listener
              (lit "tick 17") (lit "tick") (Parsed (VInt 17)) 0%nat)
    as (c' & out & H1 & H2 & _ & _ & _ & H3).
  - vm_compute; reflexivity.
  - reflexivity.
  - apply (bool_decide_unpack _). vm_compute. exact I.
  - exists c', out. split; [exact H1|]. split; [exact H2|].
    split; [vm_compute; reflexivity|].
    destruct (H3 [0; 1; 3]%nat) as (H4 & _ & _); [vm_compute; reflexivity|].
    unfold specific_list. rewrite H4. vm_compute; reflexivity.
Defined.

(** The same dispatch: callable 1 raises, and 2, 4, 1 and 3 are all
    called. *)
Lemma propagate_contains_failures_example :
  ∃ (c' : Client) (out : list (output value)),
    propagate loads_scalar some_alive tick_listener (lit "tick 17")
      = (Ok tt, c', out) ∧
    invoked out = [2; 4; 1; 3]%nat ∧
    Printed (CallbackError 1) ∈ out.
Proof.
  destruct (propagate_contains_failures loads_scalar some_alive tick_listener
              (lit "tick 17") (lit "tick") (Parsed (VInt 17)))
    as (c' & out & H1 & H2 & _ & H3).
  - vm_compute; reflexivity.
  - exists c', out. split; [exact H1|]. split.
    + rewrite H2. vm_compute; reflexivity.
    + apply (H3 1%nat (λ _, Raise (CallbackError 1))).
      * apply (bool_decide_unpack _). vm_compute. exact I.
      * reflexivity.
      * reflexivity.
Defined.

(** ** Registration order *)

Section History.

Context {json : Type}.
Variable Json_loads : str -> result json.

Implicit Types (live : referents json) (message : payload json).
Implicit Types (l : list weakref) (r : weakref) (c : Client).
Implicit Types (m : method json) (ms : list (method json)).

(** [register], by the topic it files the callback under. *)
Lemma register_eq c (callback : object) (topic : option str) :
  (register c callback topic).2 =
    match callback with
    | NotCallable => c
    | Callable id =>
        match normalize topic with
        | None =>
            mkClient (subscriptions c ++ [[]]) (callback_all c ++ [id])
              (callback_specific c) (shutdown c)
        | Some t =>
            mkClient (subscriptions c ++ [t]) (callback_all c)
              (<[t := specific_list c t ++ [id]]> (callback_specific c))
              (shutdown c)
        end
    end.
Proof.
  destruct callback as [id|]; [|done].
  destruct topic as [topic|]; simpl; [|done].
  unfold specific_list. by destruct (callback_specific c !! _).
Qed.

Lemma registered_snoc (k : option bytes) ms m :
  registered k (ms ++ [m]) =
    registered k ms ++ match registration k m with Some r => [r] | None => [] end.
Proof.
  unfold registered. rewrite omap_app. simpl.
  by destruct (registration k m).
Qed.

Lemma specific_list_pruned live c (topic t : bytes) :
  specific_list (pruned live c topic) t `sublist_of` specific_list c t.
Proof.
  unfold specific_list at 1. destruct (decide (t = topic)) as [->|Ht].
  - destruct (callback_specific c !! topic) as [l|] eqn:Hl.
    + rewrite (pruned_lookup _ _ _ _ Hl). unfold specific_list. rewrite Hl.
      case_decide; simpl; [apply sublist_nil_l|apply sublist_filter].
    + unfold pruned; simpl. rewrite Hl. done.
  - by rewrite pruned_lookup_ne.
Qed.

(** [propagate] only ever drops references. *)
Lemma propagate_sublist live c (frame : bytes) :
  let c' := (propagate Json_loads live c frame).1.2 in
  callback_all c' `sublist_of` callback_all c ∧
  ∀ t : bytes, specific_list c' t `sublist_of` specific_list c t.
Proof.
  cbv zeta. destruct (parse Json_loads frame) as [[topic message]|e] eqn:Hp.
  - rewrite (propagate_parsed _ _ _ _ _ _ Hp). simpl.
    split; [apply sublist_filter|]. intros t. apply specific_list_pruned.
  - destruct (decide (callback_all c = [])) as [H1|H1];
      [destruct (decide (callback_specific c = ∅)) as [H2|H2]|].
    + by rewrite propagate_idle.
    + by rewrite (propagate_unparsed _ _ _ _ e) by auto.
    + by rewrite (propagate_unparsed _ _ _ _ e) by auto.
Qed.

Lemma invoke_order c ms m :
  in_registration_order c ms →
  in_registration_order (invoke Json_loads c m) (ms ++ [m]).
Proof.
  intros [Hall Hspec]. unfold in_registration_order.
  setoid_rewrite registered_snoc.
  destruct m as [callback topic|topic|live frame]; simpl.
  - rewrite register_eq. destruct callback as [id|]; simpl.
    2:{ split; [by rewrite app_nil_r|]. intros t. by rewrite app_nil_r. }
    destruct (normalize topic) as [t0|] eqn:Hn; simpl.
    + split; [by rewrite app_nil_r|].
      intros t. unfold specific_list at 1; simpl.
      destruct (decide (t0 = t)) as [->|Ht].
      * rewrite lookup_insert_eq. case_decide; [|done]. simpl.
        by apply sublist_app.
      * rewrite lookup_insert_ne by done.
        case_decide; [congruence|]. rewrite app_nil_r. apply Hspec.
    + split; [by apply sublist_app|].
      intros t. rewrite app_nil_r. apply Hspec.
  - rewrite app_nil_r. split; [done|]. intros t. rewrite app_nil_r. apply Hspec.
  - destruct (propagate_sublist live c frame) as [H1 H2].
    rewrite app_nil_r. split; [by etrans|].
    intros t. rewrite app_nil_r. etrans; [apply H2|apply Hspec].
Qed.

Lemma history_order ms :
  in_registration_order (foldl (invoke Json_loads) Client_init ms) ms.
Proof.
  induction ms as [|m ms IH] using rev_ind.
  - split; [done|]. intros t. unfold specific_list. simpl.
    by rewrite lookup_empty.
  - rewrite foldl_snoc. by apply invoke_order.
Qed.

(** With registrations only, the registries are the registrations. *)
Lemma registers_exact ms :
  Forall is_register ms →
  let c := foldl (invoke Json_loads) Client_init ms in
  callback_all c = registered None ms ∧
  ∀ t : bytes, specific_list c t = registered (Some t) ms.
Proof.
  cbv zeta. induction ms as [|m ms IH] using rev_ind; intros Hms.
  - split; [done|]. intros t. unfold specific_list. simpl.
    by rewrite lookup_empty.
  - apply Forall_app in Hms as [Hms Hm]. rewrite Forall_singleton in Hm.
    destruct (IH Hms) as [IHall IHspec].
    rewrite foldl_snoc. setoid_rewrite registered_snoc.
    destruct m as [callback topic| |]; [|by destruct Hm|by destruct Hm]. simpl.
    rewrite register_eq. destruct callback as [id|]; simpl.
    2:{ rewrite app_nil_r. split; [done|]. intros t. rewrite app_nil_r. apply IHspec. }
    destruct (normalize topic) as [t0|] eqn:Hn; simpl.
    + rewrite app_nil_r. split; [done|].
      intros t. unfold specific_list at 1; simpl.
      destruct (decide (t0 = t)) as [->|Ht].
      * rewrite lookup_insert_eq. case_decide; [|done]. simpl.
        by rewrite IHspec.
      * rewrite lookup_insert_ne by done.
        case_decide; [congruence|]. rewrite app_nil_r. apply IHspec.
    + split; [by rewrite IHall|].
      intros t. rewrite app_nil_r. apply IHspec.
Qed.

(** C8. For a client with any history of calls, a dispatched message
    reaches first the live callbacks of the all-topics list, then those
    of the list of its topic, each list in its own order; and each list
    holds its references in the order in which they were registered (it
    is exactly the sequence of registrations when the history has
    registrations only). *)
Theorem propagate_order ms live (frame topic : bytes) message :
  let c := foldl (invoke Json_loads) Client_init ms in
  parse Json_loads frame = Ok (topic, message) →
  invoked (propagate Json_loads live c frame).2 =
    live_refs live (callback_all c) ++ live_refs live (specific_list c topic) ∧
  callback_all c `sublist_of` registered None ms ∧
  specific_list c topic `sublist_of` registered (Some topic) ms ∧
  (Forall is_register ms →
   callback_all c = registered None ms ∧
   specific_list c topic = registered (Some topic) ms).
Proof.
  cbv zeta. intros Hp. rewrite (propagate_parsed _ _ _ _ _ _ Hp). simpl.
  destruct (history_order ms) as [Hall Hspec].
  repeat split; try done.
  - rewrite invoked_outcomes. apply filter_app.
  - by apply registers_exact.
  - by apply registers_exact.
Qed.

(** ** The shutdown flag and the receive loop *)

Lemma register_shutdown c (callback : object) (topic : option str) :
  shutdown (register c callback topic).2 = shutdown c.
Proof. rewrite register_eq. by repeat case_match. Qed.

Lemma propagate_shutdown live c (frame : bytes) :
  shutdown (propagate Json_loads live c frame).1.2 = shutdown c.
Proof.
  unfold propagate.
  repeat (case_match; simpl; try done).
Qed.

(** No method writes the flag. *)
Lemma invoke_shutdown c m : shutdown (invoke Json_loads c m) = shutdown c.
Proof.
  destruct m; simpl; auto using register_shutdown, propagate_shutdown.
Qed.

Lemma history_shutdown ms :
  shutdown (foldl (invoke Json_loads) Client_init ms) = false.
Proof.
  induction ms as [|m ms IH] using rev_ind; [done|].
  by rewrite foldl_snoc, invoke_shutdown.
Qed.

(** While the flag is [False] the loop does not return; it goes on or
    dies, and the flag stays [False]. *)
Lemma run_not_stopped c (polls : list (poll json)) :
  shutdown c = false →
  (∀ c', (run Json_loads c polls).1 ≠ Stopped c') ∧
  shutdown (thread_client (run Json_loads c polls).1) = false.
Proof.
  revert c. induction polls as [|p polls IH]; intros c Hc; simpl; rewrite Hc.
  - done.
  - destruct (received p) as [frame|]; [|by apply IH].
    pose proof (propagate_shutdown (alive p) c frame) as Hs.
    destruct (propagate Json_loads (alive p) c frame) as [[[u|e] c1] out];
      simpl in *.
    + rewrite Hc in Hs. destruct (IH c1 Hs) as [H1 H2].
      by destruct (run Json_loads c1 polls).
    + split; [done|]. congruence.
Qed.

(** C10. The flag is [False] when the client is built; [register],
    [subscribe] and [propagate] leave it as it is, so it is [False] after
    any history of calls; and from such a client the loop of [run],
    whatever it receives, never returns by reading the flag: it is still
    running or it has died, with the flag still [False]. *)
Theorem shutdown_never_set ms (polls : list (poll json)) :
  shutdown Client_init = false ∧
  (∀ c m, shutdown (invoke Json_loads c m) = shutdown c) ∧
  let c := foldl (invoke Json_loads) Client_init ms in
  shutdown c = false ∧
  (∀ c', (run Json_loads c polls).1 ≠ Stopped c') ∧
  shutdown (thread_client (run Json_loads c polls).1) = false.
Proof.
  split; [done|]. split; [apply invoke_shutdown|]. cbv zeta.
  split; [apply history_shutdown|].
  apply run_not_stopped, history_shutdown.
Qed.

(** C2, as the code has it. A frame that fails to parse while somebody
    is listening makes [propagate] raise before any callback is called
    and with the registries untouched; nothing in [run] catches the
    exception, so the thread dies there and receives nothing more. *)
Theorem run_dies_on_decode_failure c (p : poll json) (polls : list (poll json))
    (frame : bytes) (e : exn) :
  shutdown c = false →
  received p = Some frame →
  callback_all c ≠ [] ∨ callback_specific c ≠ ∅ →
  parse Json_loads frame = Raise e →
  propagate Json_loads (alive p) c frame = (Raise e, c, []) ∧
  run Json_loads c (p :: polls) = (Died e c, []).
Proof.
  intros Hc Hp Hreg He.
  pose proof (propagate_unparsed Json_loads (alive p) c frame e Hreg He) as H.
  split; [done|]. simpl. by rewrite Hc, Hp, H.
Qed.

End History.

(** ** A bulk frame, from its bytes to the callbacks *)

Section EndToEnd.

Context {json : Type}.
Variable Json_loads : str -> result json.

(** C1, as the code has it. A frame with the bytes that [publish] builds
    for a bulk payload (the topic, [;bulk], a space, the publication id
    in decimal, a space, the payload), for a topic without whitespace,
    reaches the callbacks (those registered for all topics and those
    registered for the topic followed by [;bulk]) as raw bytes and is
    never handed to the parser; the bytes they receive are the
    publication id in decimal, a space, and then the payload unchanged:
    the id is not stripped. *)
Theorem bulk_frame_delivered_with_id (topic : str) (i : Z) (bulk : bytes)
    (live : referents json) (c : Client) :
  no_space (encode topic) →
  let body := encode (str_of_int i) ++ lit " " ++ bulk in
  parse Json_loads (bulk_frame topic i bulk)
    = Ok (encode topic ++ lit ";bulk", Raw body) ∧
  ∃ (c' : Client) (out : list (output json)),
    propagate Json_loads live c (bulk_frame topic i bulk) = (Ok tt, c', out) ∧
    invoked out =
      live_refs live (callback_all c) ++
      live_refs live (specific_list c (encode topic ++ lit ";bulk")) ∧
    ∀ r (m : payload json), Invoked r m ∈ out → m = Raw body.
Proof.
  intros Htopic. cbv zeta.
  assert (parse Json_loads (bulk_frame topic i bulk)
          = Ok (encode topic ++ lit ";bulk",
                Raw (encode (str_of_int i) ++ lit " " ++ bulk))) as Hp.
  { rewrite <- (parse_bulk_frame Json_loads (encode topic) i bulk Htopic).
    f_equal. unfold bulk_frame. by rewrite !encode_app, <- !app_assoc. }
  split; [exact Hp|].
  eexists _, _. split; [by apply propagate_parsed|]. split.
  - rewrite invoked_outcomes. apply filter_app.
  - intros r m Hm. by apply invoked_in_outcomes in Hm as (_ & _ & ->).
Qed.

End EndToEnd.

(** ** Examples *)

(** The history [tick_history], callable 0 gone: a message for [tick]
    reaches 2 and 4, registered for all topics, and then 1 and 3. *)
Lemma propagate_order_example :
  invoked (propagate loads_scalar some_alive tick_listener (lit "tick 17")).2
    = [2; 4; 1; 3]%nat ∧
  registered None tick_history = [2; 4]%nat ∧
  registered (Some (lit "tick")) tick_history = [0; 1; 3]%nat.
Proof.
  destruct (propagate_order loads_scalar tick_history some_alive
              (lit "tick 17") (lit "tick") (Parsed (VInt 17)))
    as (H1 & _ & _ & _).
  - vm_compute; reflexivity.
  - split; [|split; vm_compute; reflexivity].
    unfold tick_listener. rewrite H1. vm_compute; reflexivity.
Defined.

(** The body [tru] is not JSON: the thread dies on it. *)
Lemma run_dies_on_decode_failure_example :
  parse loads_scalar (lit "tick tru") = Raise JsonDecodeError ∧
  run loads_scalar tick_listener
    [ mkPoll all_alive (Some (lit "tick tru"));
      mkPoll all_alive (Some (lit "tick true")) ]
  = (Died JsonDecodeError tick_listener, []).
Proof.
  split; [vm_compute; reflexivity|].
  destruct (run_dies_on_decode_failure loads_scalar tick_listener
              (mkPoll all_alive (Some (lit "tick tru")))
              [ mkPoll all_alive (Some (lit "tick true")) ]
              (lit "tick tru") JsonDecodeError) as [_ H].
  - vm_compute; reflexivity.
  - reflexivity.
  - left. apply (bool_decide_unpack _). vm_compute. exact I.
  - vm_compute; reflexivity.
  - exact H.
Defined.

(** Against C2: the frame [tick true] alone is dispatched to the five
    callbacks, but behind a frame that does not parse it is never
    dispatched, because the thread has died. *)
Lemma decode_failure_ends_loop :
  run loads_scalar tick_listener [ mkPoll all_alive (Some (lit "tick true")) ]
  = (Running tick_listener,
     [ Invoked 2%nat (Parsed (VBool true)); Invoked 4%nat (Parsed (VBool true));
       Invoked 0%nat (Parsed (VBool true)); Invoked 1%nat (Parsed (VBool true));
       Invoked 3%nat (Parsed (VBool true)) ]) ∧
  run loads_scalar tick_listener
    [ mkPoll all_alive (Some (lit "tick tru"));
      mkPoll all_alive (Some (lit "tick true")) ]
  = (Died JsonDecodeError tick_listener, []).
Proof. split; vm_compute; reflexivity. Qed.

(** The bulk frame of the topic [frame], the id 5 and three payload
    bytes, dispatched to a callback registered for [frame;bulk]. *)
Lemma bulk_frame_delivered_with_id_example :
  let body := encode (str_of_int 5) ++ lit " " ++ frame_bulk in
  parse loads_scalar (bulk_frame "frame" 5 frame_bulk)
    = Ok (encode "frame" ++ lit ";bulk", Raw body) ∧
  ∃ (c' : Client) (out : list (output value)),
    propagate loads_scalar all_alive bulk_listener
      (bulk_frame "frame" 5 frame_bulk) = (Ok tt, c', out) ∧
    invoked out =
      live_refs all_alive (callback_all bulk_listener) ++
      live_refs all_alive
        (specific_list bulk_listener (encode "frame" ++ lit ";bulk")) ∧
    ∀ (r : weakref) (m : payload value), Invoked r m ∈ out → m = Raw body.
Proof.
  apply (bulk_frame_delivered_with_id loads_scalar "frame" 5 frame_bulk
           all_alive bulk_listener).
  unfold no_space. apply (bool_decide_unpack _). vm_compute. exact I.
Defined.

(** Against C1: of the bulk frame built for the topic [frame], the id 5
    and the payload bytes 0, 1, 2, the callback receives the five bytes
    [5], space, 0, 1, 2 and not the three bytes of the payload. *)
Lemma bulk_callback_receives_id :
  bulk_frame "frame" 5 frame_bulk = lit "frame;bulk 5 " ++ frame_bulk ∧
  (propagate loads_scalar all_alive bulk_listener
     (bulk_frame "frame" 5 frame_bulk)).2
  = [Invoked 0%nat (Raw (lit "5 " ++ frame_bulk))] ∧
  Invoked 0%nat (Raw (lit "5 " ++ frame_bulk))
    ≠ Invoked 0%nat (@Raw value frame_bulk).
Proof.
  split; [vm_compute; reflexivity|].
  split; [vm_compute; reflexivity|].
  vm_compute. discriminate.
Qed.

(** ** More on the sequencer *)

Section SequencerMore.

Implicit Types (s : Server) (i j : Z).

Lemma pub_id_next_mod s :
  pub_id_min <= pub_id s <= pub_id_max →
  pub_id_next s =
    (pub_id s, mkServer ((pub_id s + 1) mod pub_id_count) (sent s)).
Proof.
  intros Hs. rewrite pub_id_next_eq.
  unfold pub_id_count, pub_id_max, pub_id_min in *.
  destruct (Z.ltb_spec (pub_id s) 0xFFFFFFFF).
  - by rewrite Z.mod_small by lia.
  - assert (pub_id s = 0xFFFFFFFF) as -> by lia. reflexivity.
Qed.

Lemma pub_id_calls_mod s (n : nat) :
  pub_id_min <= pub_id s <= pub_id_max →
  (pub_id_calls n s).1 =
    (λ k : nat, (pub_id s + Z.of_nat k) mod pub_id_count) <$> seq 0 n ∧
  pub_id (pub_id_calls n s).2 = (pub_id s + Z.of_nat n) mod pub_id_count ∧
  sent (pub_id_calls n s).2 = sent s.
Proof.
  revert s. induction n as [|n IH]; intros s Hs.
  - simpl. rewrite Z.add_0_r, Z.mod_small; [done|].
    unfold pub_id_count, pub_id_max, pub_id_min in *. lia.
  - rewrite pub_id_calls_S, (pub_id_next_mod s Hs). cbn [fst snd].
    assert (pub_id_min <= (pub_id s + 1) mod pub_id_count <= pub_id_max) as H1.
    { pose proof (Z.mod_pos_bound (pub_id s + 1) pub_id_count).
      unfold pub_id_count, pub_id_max, pub_id_min in *. lia. }
    destruct (IH (mkServer ((pub_id s + 1) mod pub_id_count) (sent s)) H1)
      as (IH1 & IH2 & IH3). cbn [pub_id sent] in *.
    rewrite IH1, IH2, IH3. repeat split.
    + cbn [seq fmap list_fmap]. f_equal.
      * rewrite Z.add_0_r, Z.mod_small; [done|].
        unfold pub_id_count, pub_id_max, pub_id_min in *. lia.
      * rewrite <- fmap_S_seq, <- list_fmap_compose.
        apply list_fmap_ext. intros _ k _. simpl.
        rewrite Z.add_mod_idemp_l by done. f_equal. lia.
    + rewrite Z.add_mod_idemp_l by done. f_equal. lia.
Qed.

(** Consecutive calls from a counter within bounds count modulo 2^32:
    call number [k] returns the counter plus [k], reduced, and the
    counter stays within bounds. *)
Theorem pub_id_calls_count s (n : nat) :
  pub_id_min <= pub_id s <= pub_id_max →
  (pub_id_calls n s).1 =
    (λ k : nat, (pub_id s + Z.of_nat k) mod pub_id_count) <$> seq 0 n ∧
  pub_id (pub_id_calls n s).2 = (pub_id s + Z.of_nat n) mod pub_id_count ∧
  sent (pub_id_calls n s).2 = sent s.
Proof. apply pub_id_calls_mod. Qed.

(** From a counter at 0xFFFFFFFD, five calls. *)
Lemma pub_id_calls_count_example :
  (pub_id_calls 5 (mkServer 0xFFFFFFFD [])).1
    = [0xFFFFFFFD; 0xFFFFFFFE; 0xFFFFFFFF; 0; 1] ∧
  pub_id (pub_id_calls 5 (mkServer 0xFFFFFFFD [])).2 = 2.
Proof.
  destruct (pub_id_calls_count (mkServer 0xFFFFFFFD []) 5) as (H1 & H2 & _).
  - vm_compute. split; discriminate.
  - rewrite H1, H2. split; vm_compute; reflexivity.
Defined.

(** On a server built by [__init__], whatever the number of calls made,
    the counter is within bounds, so the next call returns the counter
    as it stands: the branch for a counter beyond the maximum is never
    taken, and every id returned lies between the minimum and the
    maximum. *)
Theorem pub_id_next_never_clamps (n : nat) :
  let s := (pub_id_calls n Server_init).2 in
  pub_id_min <= pub_id s <= pub_id_max ∧
  (pub_id_next s).1 = pub_id s ∧
  Forall (λ i, pub_id_min <= i <= pub_id_max) (pub_id_calls n Server_init).1.
Proof.
  cbv zeta.
  destruct (pub_id_calls_mod Server_init n) as (H1 & H2 & _); [by compute|].
  assert (∀ z, pub_id_min <= z mod pub_id_count <= pub_id_max) as Hmod.
  { intros z. pose proof (Z.mod_pos_bound z pub_id_count).
    unfold pub_id_count, pub_id_max, pub_id_min in *. lia. }
  split; [rewrite H2; apply Hmod|]. split.
  - rewrite pub_id_next_mod; [done|]. rewrite H2. apply Hmod.
  - rewrite H1. apply Forall_fmap, Forall_forall. intros k _. apply Hmod.
Qed.

End SequencerMore.
(** ** More on the publisher *)

Section PublisherMore.

Variable Json_dumps : event -> str.

Implicit Types (s : Server) (message : event) (topic : str).

(** [publish] never returns normally and never sends: it raises
    [KeyError] when the event has no name and [TypeError] otherwise (at
    the concatenation for a name that is not a string, at [send] for one
    that is), and the frames sent are those sent before the call. *)
Theorem publish_sends_nothing s message (bulk : option bytes) :
  ∃ (e : exn) (s' : Server) (message' : event),
    publish Json_dumps s message bulk = (Raise e, s', message') ∧
    (e = KeyError ∨ e = TypeError) ∧
    (e = KeyError ↔ message !! "name" = None) ∧
    sent s' = sent s.
Proof.
  unfold publish. pose proof (pub_id_next_sent s) as Hs.
  destruct (pub_id_next s) as [i s1]; simpl in *.
  destruct (message !! "name") as [[| | |topic]|]; simpl;
    eexists _, _, _; (split; [reflexivity|]); (split; [by auto|]);
      (split; [by split|done]).
Qed.

(** A name that is not a string: [publish] raises [TypeError] at the
    concatenation and sends nothing, but by then the id is spent and
    the event is stamped. *)
Theorem publish_name_not_str s message (v : value) (bulk : option bytes) :
  message !! "name" = Some v →
  (∀ topic, v ≠ VStr topic) →
  publish Json_dumps s message bulk =
    (Raise TypeError, (pub_id_next s).2,
     stamped (pub_id_next s).1 bulk message) ∧
  sent (pub_id_next s).2 = sent s.
Proof.
  intros Hv Hstr. split; [|apply pub_id_next_sent].
  unfold publish, stamped. destruct (pub_id_next s) as [i s1]; simpl.
  rewrite Hv. destruct v as [| | |topic]; try done; by destruct (Hstr topic).
Qed.


Lemma publish_pub_id s message (bulk : option bytes) :
  pub_id (publish Json_dumps s message bulk).1.2 = pub_id (pub_id_next s).2.
Proof.
  unfold publish. destruct (pub_id_next s) as [i s1]; simpl.
  by destruct (message !! "name") as [[| | |topic]|].
Qed.

(** Every call of [publish], whether it succeeds or raises, takes one id
    from the sequencer; it keeps the frames already sent and adds at
    most two. *)
Theorem publish_takes_one_id s message (bulk : option bytes) :
  let s' := (publish Json_dumps s message bulk).1.2 in
  pub_id s' = pub_id (pub_id_next s).2 ∧
  ∃ new : list frame, sent s' = sent s ++ new ∧ (length new <= 2)%nat.
Proof.
  cbv zeta. unfold publish. pose proof (pub_id_next_sent s) as Hs.
  destruct (pub_id_next s) as [i s1]; simpl in *.
  destruct (message !! "name") as [[| | |topic]|]; simpl;
    (split; [done|]; exists []; rewrite app_nil_r; split; [done|simpl; lia]).
Qed.

Lemma publish_each_S s message (bulk : option bytes)
    (calls : list (event * option bytes)) :
  publish_each Json_dumps s ((message, bulk) :: calls) =
    (((publish Json_dumps s message bulk).1.1,
      (publish Json_dumps s message bulk).2)
       :: (publish_each Json_dumps (publish Json_dumps s message bulk).1.2 calls).1,
     (publish_each Json_dumps (publish Json_dumps s message bulk).1.2 calls).2).
Proof.
  simpl. destruct (publish Json_dumps s message bulk) as [[r s1] m1]; simpl.
  by destruct (publish_each Json_dumps s1 calls).
Qed.

(** On a server built by [__init__], the call number [k] (from 0) of a
    run of [publish] calls stamps the id [k] modulo 2^32 on its event,
    provided the event has a name; calls that fail count too. *)
Theorem publish_each_ids (calls : list (event * option bytes)) (k : nat)
    (message : event) (bulk : option bytes) :
  calls !! k = Some (message, bulk) →
  is_Some (message !! "name") →
  ∃ (r : result unit) (message' : event),
    (publish_each Json_dumps Server_init calls).1 !! k = Some (r, message') ∧
    message' !! "id" = Some (VInt (Z.of_nat k mod pub_id_count)).
Proof.
  assert (∀ s, pub_id_min <= pub_id s <= pub_id_max →
            calls !! k = Some (message, bulk) →
            is_Some (message !! "name") →
            ∃ r message',
              (publish_each Json_dumps s calls).1 !! k = Some (r, message') ∧
              message' !! "id"
                = Some (VInt ((pub_id s + Z.of_nat k) mod pub_id_count))) as H.
  { revert k. induction calls as [|[m0 b0] calls IH]; intros k s Hs Hk Hname;
      [done|].
    rewrite publish_each_S. destruct k as [|k]; simpl in Hk.
    - injection Hk as -> ->. eexists _, _. split; [done|]. simpl.
      rewrite (publish_event _ _ _ _ Hname), stamped_id.
      rewrite (pub_id_next_mod s Hs). simpl.
      rewrite Z.add_0_r, Z.mod_small; [done|].
      unfold pub_id_count, pub_id_max, pub_id_min in *. lia.
    - pose proof (publish_pub_id s m0 b0) as Hid.
      rewrite (pub_id_next_mod s Hs) in Hid. simpl in Hid.
      edestruct (IH k (publish Json_dumps s m0 b0).1.2) as (r & m' & H1 & H2);
        [|done|done|].
      { rewrite Hid. pose proof (Z.mod_pos_bound (pub_id s + 1) pub_id_count).
        unfold pub_id_count, pub_id_max, pub_id_min in *. lia. }
      exists r, m'. split; [done|]. rewrite H2, Hid.
      rewrite Z.add_mod_idemp_l by done. do 3 f_equal. lia. }
  intros Hk Hname. destruct (H Server_init) as (r & m' & H1 & H2);
    [by compute|done|done|].
  exists r, m'. split; [done|]. by rewrite H2.
Qed.


End PublisherMore.

Lemma publish_name_not_str_example :
  publish dumps_flat (mkServer 5 []) {[ "name" := VInt 7 ]} (Some frame_bulk) =
    (Raise TypeError, mkServer 6 [],
     stamped 5 (Some frame_bulk) {[ "name" := VInt 7 ]}).
Proof.
  destruct (publish_name_not_str dumps_flat (mkServer 5 [])
              {[ "name" := VInt 7 ]} (VInt 7) (Some frame_bulk)) as [H _].
  - vm_compute; reflexivity.
  - discriminate.
  - exact H.
Defined.

Lemma publish_each_ids_example :
  ∃ (r : result unit) (message' : event),
    (publish_each dumps_flat Server_init
       [ (frame_event, None); (∅, None); (frame_event, Some frame_bulk) ]).1 !! 2%nat
      = Some (r, message') ∧
    message' !! "id" = Some (VInt (Z.of_nat 2 mod pub_id_count)).
Proof.
  apply (publish_each_ids dumps_flat
           [ (frame_event, None); (∅, None); (frame_event, Some frame_bulk) ]
           2 frame_event (Some frame_bulk)).
  - reflexivity.
  - exists (VStr "frame"). vm_compute; reflexivity.
Defined.
(** ** More on framing *)

Lemma take_word_all (w : bytes) : no_space w → take_word w = (w, []).
Proof.
  intros Hw. induction Hw as [|d w Hd Hw IH]; simpl; [done|].
  by rewrite Hd, IH.
Qed.

Lemma skip_space_head (s : bytes) (c : byte) (t : bytes) :
  skip_space s = c :: t → isspace c = false.
Proof.
  induction s as [|d s IH]; simpl; [done|].
  destruct (isspace d) eqn:Hd; [done|]. by intros [= -> ->].
Qed.

Lemma take_word_spec (s w rest : bytes) :
  take_word s = (w, rest) →
  s = w ++ rest ∧ no_space w ∧
  match rest with c :: _ => isspace c = true | [] => True end.
Proof.
  revert w rest. induction s as [|d s IH]; intros w rest; simpl.
  - intros [= <- <-]. repeat split; by try constructor.
  - destruct (isspace d) eqn:Hd.
    + intros [= <- <-]. repeat split; by try constructor.
    + destruct (take_word s) as [w' rest'] eqn:E. intros [= <- <-].
      destruct (IH _ _ eq_refl) as (-> & Hw & Hrest).
      repeat split; [by constructor|done].
Qed.

(** What [split(maxsplit=1)] returns when it returns two parts: a word,
    and a remainder that starts with a visible character. *)
Lemma bytes_split_two (s topic body : bytes) :
  bytes_split 1 s = [topic; body] →
  topic ≠ [] ∧ no_space topic ∧
  ∃ (d : byte) (ds : bytes), body = d :: ds ∧ isspace d = false.
Proof.
  unfold bytes_split.
  destruct (skip_space s) as [|c t] eqn:Hs; [done|].
  apply skip_space_head in Hs.
  destruct (take_word (c :: t)) as [w rest] eqn:Hw.
  pose proof (take_word_spec _ _ _ Hw) as (_ & Hns & _).
  simpl in Hw. rewrite Hs in Hw.
  destruct (take_word t) as [w' rest'] eqn:E. injection Hw as <- <-.
  destruct (skip_space rest') as [|d ds] eqn:Hr; [done|].
  intros [= <- <-]. repeat split; [done|done|].
  exists d, ds. split; [done|]. by apply skip_space_head in Hr.
Qed.

Lemma digits_no_space (u : Decimal.uint) :
  no_space (list_byte_of_string (NilEmpty.string_of_uint u)).
Proof. induction u; simpl; by constructor. Qed.

(** A decimal numeral holds no whitespace. *)
Lemma str_of_int_no_space (i : Z) : no_space (encode (str_of_int i)).
Proof.
  unfold str_of_int, encode, NilZero.string_of_int, NilZero.string_of_uint.
  destruct (Z.to_int i) as [u|u]; [|constructor; [done|]];
    (destruct u; [by repeat constructor|apply digits_no_space ..]).
Qed.

Lemma to_int_nonnil (i : Z) :
  Z.to_int i ≠ Decimal.Pos Decimal.Nil ∧ Z.to_int i ≠ Decimal.Neg Decimal.Nil.
Proof.
  destruct i; simpl; split; try discriminate; intros [= H];
    by apply DecimalPos.Unsigned.to_uint_nonnil in H.
Qed.

Lemma str_of_int_inj (i j : Z) : str_of_int i = str_of_int j → i = j.
Proof.
  unfold str_of_int. intros H.
  apply (f_equal NilZero.int_of_string) in H.
  destruct (to_int_nonnil i), (to_int_nonnil j).
  rewrite !NilZero.isi in H by done. injection H as H.
  by apply DecimalZ.to_int_inj.
Qed.

Lemma encode_inj (s t : str) : encode s = encode t → s = t.
Proof.
  unfold encode. intros H. apply (f_equal string_of_list_byte) in H.
  by rewrite !string_of_list_byte_of_string in H.
Qed.

Lemma bulk_frame_eq (topic : str) (i : Z) (bulk : bytes) :
  bulk_frame topic i bulk =
    (encode topic ++ lit ";bulk")
    ++ x20 :: encode (str_of_int i) ++ x20 :: bulk.
Proof.
  unfold bulk_frame. by rewrite !encode_app, <- !app_assoc.
Qed.

(** The bulk frame says everything: when the topics hold no whitespace,
    two bulk frames with the same bytes have the same topic, the same id
    and the same payload, whatever bytes the payloads contain. *)
Theorem bulk_frame_inj (t1 t2 : str) (i1 i2 : Z) (b1 b2 : bytes) :
  no_space (encode t1) → no_space (encode t2) →
  bulk_frame t1 i1 b1 = bulk_frame t2 i2 b2 →
  t1 = t2 ∧ i1 = i2 ∧ b1 = b2.
Proof.
  intros H1 H2 Heq. rewrite !bulk_frame_eq in Heq.
  assert (∀ t, no_space (encode t) → no_space (encode t ++ lit ";bulk")) as Hw.
  { intros t Ht. apply Forall_app. split; [done|]. by repeat constructor. }
  apply (f_equal take_word) in Heq.
  rewrite !take_word_app in Heq by auto.
  injection Heq as Ht Hrest.
  apply app_inv_tail, encode_inj in Ht.
  apply (f_equal take_word) in Hrest.
  rewrite !take_word_app in Hrest by auto using str_of_int_no_space.
  injection Hrest as Hi Hb.
  by apply encode_inj, str_of_int_inj in Hi.
Qed.

Lemma bulk_frame_inj_example :
  bulk_frame "frame" 5 frame_bulk = bulk_frame "frame" 5 frame_bulk ∧
  ("frame"%string = "frame"%string ∧ 5 = 5 ∧ frame_bulk = frame_bulk).
Proof.
  split; [reflexivity|].
  apply (bulk_frame_inj "frame" "frame" 5 5 frame_bulk frame_bulk).
  - unfold no_space. apply (bool_decide_unpack _). vm_compute. exact I.
  - unfold no_space. apply (bool_decide_unpack _). vm_compute. exact I.
  - reflexivity.
Defined.

Section FramingMore.

Context {json : Type}.
Variable Json_loads : str -> result json.

(** A frame without whitespace, the empty frame among them, has no
    separator: [ValueError]. *)
Theorem parse_no_separator (frame : bytes) :
  no_space frame → parse Json_loads frame = Raise ValueError.
Proof.
  intros Hf. unfold parse, bytes_split.
  destruct frame as [|c t]; [done|].
  pose proof Hf as Hc. apply Forall_cons in Hc as [Hc _].
  rewrite (skip_space_word _ _ Hc), (take_word_all _ Hf). done.
Qed.

Lemma parse_topic_word (frame topic : bytes) (message : payload json) :
  parse Json_loads frame = Ok (topic, message) → topic ≠ [] ∧ no_space topic.
Proof.
  unfold parse.
  destruct (bytes_split 1 frame) as [|t [|body [|? ?]]] eqn:Hs; try done.
  destruct (bytes_split_two _ _ _ Hs) as (Ht & Hns & _).
  case_bool_decide as Hb.
  - by intros [= <- <-].
  - destruct (decode body) as [text|e]; [|done].
    destruct (Json_loads text) as [j|e]; [|done].
    by intros [= <- <-].
Qed.

(** The topic that [propagate] reads off a frame is never empty and
    holds no whitespace; a blob handed over unparsed is never empty and
    starts with a visible character. *)
Theorem parse_topic_clean (frame topic : bytes) (message : payload json) :
  parse Json_loads frame = Ok (topic, message) →
  topic ≠ [] ∧ no_space topic ∧
  ∀ x : bytes, message = Raw x →
    bulk_topic topic ∧ ∃ (d : byte) (ds : bytes), x = d :: ds ∧ isspace d = false.
Proof.
  unfold parse.
  destruct (bytes_split 1 frame) as [|t [|body [|? ?]]] eqn:Hs; try done.
  destruct (bytes_split_two _ _ _ Hs) as (Ht & Hns & Hbody).
  case_bool_decide as Hb.
  - intros [= <- <-]. split; [done|]. split; [done|].
    intros x [= <-]. by split.
  - destruct (decode body) as [text|e]; [|done].
    destruct (Json_loads text) as [j|e]; [|done].
    intros [= <- <-]. split; [done|]. split; [done|]. by intros x.
Qed.

(** The last four bytes of the topic decide alone: an ordinary frame
    whose topic ends with [bulk] is handed over as bytes, unparsed. *)
Theorem parse_bulk_topic_raw (topic : bytes) (d : byte) (ds : bytes) :
  topic ≠ [] → no_space topic → bulk_topic topic → isspace d = false →
  parse Json_loads (topic ++ lit " " ++ d :: ds) = Ok (topic, Raw (d :: ds)).
Proof.
  intros Ht Hns Hb Hd. destruct topic as [|c w]; [done|].
  unfold parse. rewrite bytes_split_frame by done.
  by rewrite bool_decide_true.
Qed.

(** An ordinary frame: the text after the topic and the space, decoded,
    goes to the parser, whose result or failure is that of the frame. *)
Theorem parse_normal_frame (topic : bytes) (d : byte) (ds : bytes) :
  topic ≠ [] → no_space topic → ¬ bulk_topic topic → isspace d = false →
  parse Json_loads (topic ++ lit " " ++ d :: ds) =
    match decode (d :: ds) with
    | Raise e => Raise e
    | Ok text =>
        match Json_loads text with
        | Raise e => Raise e
        | Ok j => Ok (topic, Parsed j)
        end
    end.
Proof.
  intros Ht Hns Hb Hd. destruct topic as [|c w]; [done|].
  unfold parse. rewrite bytes_split_frame by done.
  by rewrite bool_decide_false.
Qed.

End FramingMore.

Lemma parse_no_separator_example :
  parse loads_scalar (lit "tick") = Raise ValueError.
Proof.
  apply (parse_no_separator loads_scalar (lit "tick")).
  unfold no_space. apply (bool_decide_unpack _). vm_compute. exact I.
Defined.

Lemma parse_topic_clean_example :
  lit "frame;bulk" ≠ [] ∧ no_space (lit "frame;bulk") ∧
  ∀ x : bytes, @Raw value (lit "5 ") = Raw x →
    bulk_topic (lit "frame;bulk") ∧
    ∃ (d : byte) (ds : bytes), x = d :: ds ∧ isspace d = false.
Proof.
  apply (parse_topic_clean loads_scalar (lit "  frame;bulk   5 ")).
  vm_compute; reflexivity.
Defined.

Lemma parse_bulk_topic_raw_example :
  parse loads_scalar (lit "rebulk" ++ lit " " ++ lit "17")
    = Ok (lit "rebulk", Raw (lit "17")).
Proof.
  apply (parse_bulk_topic_raw loads_scalar (lit "rebulk") "1"%byte (lit "7")).
  - discriminate.
  - unfold no_space. apply (bool_decide_unpack _). vm_compute. exact I.
  - reflexivity.
  - reflexivity.
Defined.

Lemma parse_normal_frame_example :
  parse loads_scalar (lit "tick" ++ lit " " ++ lit "17")
    = Ok (lit "tick", Parsed (VInt 17)).
Proof.
  etrans;
    [apply (parse_normal_frame loads_scalar (lit "tick") "1"%byte (lit "7"))
    |vm_compute; reflexivity].
  - discriminate.
  - unfold no_space. apply (bool_decide_unpack _). vm_compute. exact I.
  - unfold bulk_topic. vm_compute. discriminate.
  - reflexivity.
Defined.
(** ** More on registration and dispatch *)

Section DispatchMore.

Context {json : Type}.
Variable Json_loads : str -> result json.

Implicit Types (live : referents json) (message : payload json).
Implicit Types (l : list weakref) (r : weakref) (c : Client).
Implicit Types (m : method json) (ms : list (method json)).
Implicit Types (out : list (output json)).

(** The three ways [propagate] can go. *)
Lemma propagate_cases live c (frame : bytes) :
  (callback_all c = [] ∧ callback_specific c = ∅ ∧
   propagate Json_loads live c frame = (Ok tt, c, [])) ∨
  (∃ e, parse Json_loads frame = Raise e ∧
        propagate Json_loads live c frame = (Raise e, c, [])) ∨
  (∃ topic message,
     parse Json_loads frame = Ok (topic, message) ∧
     propagate Json_loads live c frame =
       (Ok tt, pruned live c topic,
        flat_map (outcome live message)
                 (callback_all c ++ specific_list c topic))).
Proof.
  destruct (parse Json_loads frame) as [[topic message]|e] eqn:Hp.
  - right. right. exists topic, message. split; [done|].
    by apply propagate_parsed.
  - destruct (decide (callback_all c = [])) as [H1|H1];
      [destruct (decide (callback_specific c = ∅)) as [H2|H2]|].
    + left. by rewrite propagate_idle.
    + right. left. exists e. by rewrite (propagate_unparsed _ _ _ _ e) by auto.
    + right. left. exists e. by rewrite (propagate_unparsed _ _ _ _ e) by auto.
Qed.

Lemma invoked_registered live c (frame : bytes) r message :
  Invoked r message ∈ (propagate Json_loads live c frame).2 →
  ∃ topic : bytes,
    parse Json_loads frame = Ok (topic, message) ∧
    r ∈ callback_all c ++ specific_list c topic ∧
    is_Some (live r).
Proof.
  destruct (propagate_cases live c frame)
    as [(_ & _ & ->)|[(e & _ & ->)|(topic & message' & Hp & ->)]]; simpl.
  - by intros ?%elem_of_nil.
  - by intros ?%elem_of_nil.
  - intros (Hr & Hl & ->)%invoked_in_outcomes. by exists topic.
Qed.

(** [propagate] calls nothing but live callables registered for all
    topics or under the very topic of the frame, and it hands them the
    message parsed from that frame. *)
Theorem propagate_invokes_registered live c (frame : bytes) r message :
  Invoked r message ∈ (propagate Json_loads live c frame).2 →
  ∃ topic : bytes,
    parse Json_loads frame = Ok (topic, message) ∧
    r ∈ callback_all c ++ specific_list c topic ∧
    is_Some (live r).
Proof. apply invoked_registered. Qed.

(** A live callable that has just been registered is called for the
    next frame that parses, when it was registered for all topics or
    when the topic of the frame is the one it was filed under: the
    topic given, stripped and encoded. It is called after the callables
    registered before it in the same list. *)
Theorem register_then_propagate live c (id : nat) (topic : option str)
    (frame key : bytes) message :
  is_Some (live id) →
  parse Json_loads frame = Ok (key, message) →
  normalize topic = None ∨ normalize topic = Some key →
  let c' := (register c (Callable id) topic).2 in
  ∃ (c'' : Client) out,
    propagate Json_loads live c' frame = (Ok tt, c'', out) ∧
    Invoked id message ∈ out ∧
    (normalize topic = None →
     callback_all c'' = live_refs live (callback_all c) ++ [id]) ∧
    (normalize topic = Some key →
     specific_list c'' key = live_refs live (specific_list c key) ++ [id]).
Proof.
  intros Hlive Hp Hkey. cbv zeta.
  rewrite (propagate_parsed _ _ _ _ _ _ Hp). eexists _, _. split; [done|].
  assert (live_refs live [id] = [id]) as Hid.
  { unfold live_refs. by rewrite filter_cons_True, filter_nil. }
  rewrite register_eq. destruct (normalize topic) as [t|] eqn:Hn.
  - destruct Hkey as [|[= ->]]; [done|]. split; [|split; [done|]].
    + rewrite list_elem_of_In, in_flat_map. exists id. split.
      * apply list_elem_of_In, elem_of_app. right.
        unfold specific_list; simpl. rewrite lookup_insert_eq. simpl.
        apply elem_of_app. right. by left.
      * unfold outcome. destruct Hlive as [f ->]. by left.
    + intros _. unfold specific_list at 1. simpl.
      rewrite lookup_insert_eq.
      assert (live_refs live (specific_list c key ++ [id])
              = live_refs live (specific_list c key) ++ [id]) as Hl.
      { unfold live_refs in *. by rewrite filter_app, Hid. }
      rewrite Hl.
      destruct (live_refs live (specific_list c key) ++ [id]) eqn:E.
      { by destruct (live_refs live (specific_list c key)). }
      by rewrite lookup_insert_eq.
  - split; [|split; [|done]].
    + rewrite list_elem_of_In, in_flat_map. exists id. split.
      * apply list_elem_of_In. simpl. rewrite elem_of_app. left.
        apply elem_of_app. right. by left.
      * unfold outcome. destruct Hlive as [f ->]. by left.
    + intros _. simpl. unfold live_refs in *. by rewrite filter_app, Hid.
Qed.

(** A key that is empty or holds whitespace is the topic of no frame:
    a callable filed under it by [register] gains nothing, it is called
    only if it was already registered elsewhere. *)
Theorem register_unreachable_topic live c (id : nat) (topic : str)
    (key frame : bytes) message :
  normalize (Some topic) = Some key →
  key = [] ∨ ¬ no_space key →
  let c' := (register c (Callable id) (Some topic)).2 in
  Invoked id message ∈ (propagate Json_loads live c' frame).2 →
  ∃ t : bytes, t ≠ key ∧ id ∈ callback_all c ++ specific_list c t.
Proof.
  intros Hn Hkey. cbv zeta.
  intros (t & Hp & Hin & _)%invoked_registered.
  destruct (parse_topic_word _ _ _ _ Hp) as (Ht & Hns).
  assert (t ≠ key) as Hne.
  { intros ->. by destruct Hkey. }
  exists t. split; [done|]. revert Hin.
  rewrite register_eq, Hn. unfold specific_list. simpl.
  by rewrite lookup_insert_ne.
Qed.

Lemma live_refs_idem live l : live_refs live (live_refs live l) = live_refs live l.
Proof.
  unfold live_refs. rewrite list_filter_filter.
  apply list_filter_iff. tauto.
Qed.

Lemma pruned_idem live c (topic : bytes) :
  pruned live (pruned live c topic) topic = pruned live c topic.
Proof.
  unfold pruned. simpl. rewrite live_refs_idem. f_equal.
  destruct (callback_specific c !! topic) as [l|] eqn:Hl; simpl.
  - destruct (live_refs live l) as [|r l'] eqn:E; simpl.
    + by rewrite lookup_delete_eq.
    + rewrite lookup_insert_eq, <- E, live_refs_idem, E.
      by rewrite insert_insert_eq.
  - by rewrite Hl.
Qed.

Lemma specific_list_pruned_eq live c (topic : bytes) :
  specific_list (pruned live c topic) topic
  = live_refs live (specific_list c topic).
Proof.
  unfold specific_list. destruct (callback_specific c !! topic) as [l|] eqn:Hl.
  - rewrite (pruned_lookup _ _ _ _ Hl).
    case_decide as E; simpl; [by rewrite E|done].
  - unfold pruned; simpl. rewrite Hl. by rewrite Hl.
Qed.

(** After a dispatch, the lists it went through hold live references
    only, and a second dispatch on the same topic with the same
    callables alive changes nothing. *)
Theorem propagate_twice live c (frame frame' topic : bytes) message message' :
  parse Json_loads frame = Ok (topic, message) →
  parse Json_loads frame' = Ok (topic, message') →
  let c' := (propagate Json_loads live c frame).1.2 in
  Forall (λ r, is_Some (live r)) (callback_all c' ++ specific_list c' topic) ∧
  (propagate Json_loads live c' frame').1 = (Ok tt, c').
Proof.
  intros Hp Hp'. cbv zeta.
  rewrite (propagate_parsed _ _ _ _ _ _ Hp). cbn [fst snd].
  rewrite (propagate_parsed _ _ _ _ _ _ Hp'). cbn [fst snd].
  split; [|by rewrite pruned_idem].
  rewrite specific_list_pruned_eq. simpl. apply Forall_app. unfold live_refs.
  split; apply Forall_forall; intros r Hr;
    by apply list_elem_of_filter in Hr as [? _].
Qed.

End DispatchMore.
(** ** More on histories and on the receive loop *)

Section HistoryMore.

Context {json : Type}.
Variable Json_loads : str -> result json.

Implicit Types (live : referents json) (message : payload json).
Implicit Types (l : list weakref) (r : weakref) (c : Client).
Implicit Types (m : method json) (ms : list (method json)).
Implicit Types (polls : list (poll json)).

Lemma invoke_no_empty_list c m :
  (∀ (t : bytes) l, callback_specific c !! t = Some l → l ≠ []) →
  ∀ (t : bytes) l,
    callback_specific (invoke Json_loads c m) !! t = Some l → l ≠ [].
Proof.
  intros Hc t l. destruct m as [callback topic|topic|live frame]; simpl.
  - rewrite register_eq. destruct callback as [id|]; [|apply Hc].
    destruct (normalize topic) as [t0|]; simpl; [|apply Hc].
    destruct (decide (t0 = t)) as [->|Ht].
    + rewrite lookup_insert_eq. intros [= <-]. by destruct (specific_list c t).
    + rewrite lookup_insert_ne by done. apply Hc.
  - apply Hc.
  - destruct (propagate_cases Json_loads live c frame)
      as [(_ & _ & ->)|[(e & _ & ->)|(topic & message & _ & ->)]]; simpl;
      try apply Hc.
    destruct (decide (t = topic)) as [->|Ht].
    + destruct (callback_specific c !! topic) as [l0|] eqn:Hl0.
      * destruct (live_refs live l0) eqn:E.
        -- by rewrite lookup_delete_eq.
        -- rewrite lookup_insert_eq. by intros [= <-].
      * apply Hc.
    + destruct (callback_specific c !! topic) as [l0|] eqn:Hl0; [|apply Hc].
      destruct (live_refs live l0) eqn:E.
      * rewrite lookup_delete_ne by done. apply Hc.
      * rewrite lookup_insert_ne by done. apply Hc.
Qed.

(** The mapping never keeps an empty list: whatever the calls made on a
    client, every topic on record has a reference, so the mapping is
    empty exactly when no topic has one. *)
Theorem callback_specific_no_empty_list ms (t : bytes) l :
  callback_specific (foldl (invoke Json_loads) Client_init ms) !! t = Some l →
  l ≠ [].
Proof.
  revert t l. induction ms as [|m ms IH] using rev_ind; [done|].
  rewrite foldl_snoc. by apply invoke_no_empty_list.
Qed.

Lemma invoke_subscriptions c m :
  subscriptions (invoke Json_loads c m) =
    subscriptions c ++ match subscription m with Some t => [t] | None => [] end.
Proof.
  destruct m as [callback topic|[topic|topic]|live frame]; simpl; try done.
  - rewrite register_eq. destruct callback as [id|]; simpl.
    + by destruct (normalize topic).
    + by rewrite app_nil_r.
  - rewrite app_nil_r.
    destruct (propagate_cases Json_loads live c frame)
      as [(_ & _ & ->)|[(e & _ & ->)|(topic & message & _ & ->)]]; done.
Qed.

(** The subscriptions set on the socket are those of the registrations
    and of the [subscribe] calls, one for each call and in their order:
    a topic registered twice is subscribed twice, and no dispatch, not
    even one that deletes the last callback of a topic, takes a
    subscription back. *)
Theorem subscriptions_history ms :
  subscriptions (foldl (invoke Json_loads) Client_init ms) = omap subscription ms.
Proof.
  induction ms as [|m ms IH] using rev_ind; [done|].
  rewrite foldl_snoc, invoke_subscriptions, IH, omap_app. simpl.
  by destruct (subscription m).
Qed.

(** With no callback registered, the loop takes whatever arrives, well
    formed or not, and drops it: it neither dies nor changes. *)
Theorem run_idle c polls :
  shutdown c = false →
  callback_all c = [] → callback_specific c = ∅ →
  run Json_loads c polls = (Running c, []).
Proof.
  intros Hc H1 H2. induction polls as [|p polls IH]; simpl; rewrite Hc; [done|].
  destruct (received p) as [frame|]; [|done].
  by rewrite propagate_idle, IH.
Qed.

(** As long as the frames received split and decode, the loop goes on,
    whatever the callbacks do: it is still running after them. *)
Theorem run_survives_callbacks c polls :
  shutdown c = false →
  Forall (λ p, ∀ frame, received p = Some frame →
                 ∃ tm, parse Json_loads frame = Ok tm) polls →
  ∃ c' : Client, (run Json_loads c polls).1 = Running c'.
Proof.
  intros Hc Hpolls. revert c Hc.
  induction Hpolls as [|p polls Hp _ IH]; intros c Hc; simpl; rewrite Hc;
    [by eexists|].
  destruct (received p) as [frame|]; [|by apply IH].
  destruct (Hp frame eq_refl) as [[topic message] Hparse].
  rewrite (propagate_parsed _ _ _ _ _ _ Hparse).
  destruct (IH (pruned (alive p) c topic) Hc) as [c' Hc'].
  destruct (run Json_loads (pruned (alive p) c topic) polls) as [t out2].
  by exists c'.
Qed.

(** Polls one after the other: while the thread is running, the loop
    resumes on the later polls from where the earlier ones left it; once
    it has died or returned, later polls change nothing. *)
Theorem run_app c polls polls' :
  run Json_loads c (polls ++ polls') =
    match run Json_loads c polls with
    | (Running c', out) =>
        ((run Json_loads c' polls').1, out ++ (run Json_loads c' polls').2)
    | ended => ended
    end.
Proof.
  revert c. induction polls as [|p polls IH]; intros c; simpl.
  - destruct (shutdown c) eqn:Hc.
    + destruct polls'; simpl; by rewrite Hc.
    + by destruct (run Json_loads c polls').
  - destruct (shutdown c) eqn:Hc; [done|].
    destruct (received p) as [frame|]; [|apply IH].
    destruct (propagate Json_loads (alive p) c frame) as [[[u|e] c1] out];
      [|done].
    rewrite IH. destruct (run Json_loads c1 polls) as [[c2|c2|e c2] out2];
      simpl; try done.
    by rewrite app_assoc.
Qed.

End HistoryMore.
(** ** The connection pool *)

Section PoolFacts.

Context {json : Type}.
Variable Json_loads : str -> result json.
Variable zmq_connect : str -> result unit.

Implicit Types (p : Process) (q : process_call (json := json)).
Implicit Types (calls : list (process_call (json := json))).

(** What [client] returns for a pair not on record. *)
Lemma client_new_pair p (address : option str) (port : option Z) :
  client_connections p !! (address, port) = None →
  client zmq_connect p address port =
    match zmq_connect (Client_server address port) with
    | Raise e => (Raise e, p)
    | Ok _ =>
        (Ok (length (clients p)),
         mkProcess (<[(address, port) := length (clients p)]>
                      (client_connections p))
                   (clients p ++ [(Client_server address port, Client_init)]))
    end.
Proof.
  intros H. unfold client, Client_new. rewrite H.
  by destruct (zmq_connect (Client_server address port)).
Qed.

(** Asking twice for the same pair gives the same instance, and the
    second call builds nothing. *)
Theorem client_reuse p (address : option str) (port : option Z) :
  let '(i, p1) := client zmq_connect p address port in
  client zmq_connect p1 address port = (i, p1).
Proof.
  destruct (client_connections p !! (address, port)) as [i|] eqn:H.
  - unfold client. rewrite H. by rewrite H.
  - rewrite (client_new_pair _ _ _ H).
    destruct (zmq_connect (Client_server address port)) as [[]|e] eqn:Hc.
    + unfold client. simpl. by rewrite lookup_insert_eq.
    + by rewrite (client_new_pair _ _ _ H), Hc.
Qed.

Lemma pool_ok_init : pool_ok zmq_connect Process_init.
Proof. repeat split; try done. Qed.

Lemma pool_ok_step p q :
  pool_ok zmq_connect p →
  pool_ok zmq_connect (process_step Json_loads zmq_connect p q).
Proof.
  intros Hp. pose proof Hp as (H1 & H2 & H3). unfold pool_ok.
  destruct q as [address port|i m|]; simpl.
  - destruct (client_connections p !! (address, port)) as [i|] eqn:Hk.
    { unfold client. by rewrite Hk. }
    rewrite (client_new_pair _ _ _ Hk).
    destruct (zmq_connect (Client_server address port)) as [[]|e] eqn:Hc;
      [|done]. simpl. repeat split.
    + destruct (decide ((address, port) = (address0, port0)))
        as [[= <- <-]|Hne]; [done|].
      rewrite lookup_insert_ne in H by done. by destruct (H1 _ _ _ H).
    + destruct (decide ((address, port) = (address0, port0)))
        as [[= <- <-]|Hne].
      * rewrite lookup_insert_eq in H. injection H as <-.
        exists Client_init. by rewrite lookup_app_r, Nat.sub_diag.
      * rewrite lookup_insert_ne in H by done.
        destruct (H1 _ _ _ H) as [_ [c Hcl]]. exists c.
        by rewrite lookup_app_l by (by eapply lookup_lt_Some).
    + assert (∀ k' i', client_connections p !! k' = Some i' →
                       i' ≠ length (clients p)) as Hfresh.
      { intros [a' port'] i' Hi ->. destruct (H1 _ _ _ Hi) as [_ [c Hcl]].
        apply lookup_lt_Some in Hcl. lia. }
      intros k1 k2 i'.
      destruct (decide ((address, port) = k1)) as [<-|Hn1];
        destruct (decide ((address, port) = k2)) as [<-|Hn2];
        rewrite ?lookup_insert_eq, ?lookup_insert_ne by done; try done.
      * intros [= <-] Hi. by destruct (Hfresh _ _ Hi).
      * intros Hi [= <-]. by destruct (Hfresh _ _ Hi).
      * apply H2.
    + apply Forall_app. split; [done|]. by repeat constructor.
  - destruct (clients p !! i) as [[server c]|] eqn:Hi; [|done]. simpl.
    repeat split.
    + by destruct (H1 _ _ _ H).
    + destruct (H1 _ _ _ H) as [_ [c' Hc']].
      destruct (decide (i = i0)) as [->|Hne].
      * rewrite Hi in Hc'. injection Hc' as -> <-.
        eexists. apply list_lookup_insert_eq. by eapply lookup_lt_Some.
      * exists c'. by rewrite list_lookup_insert_ne.
    + done.
    + apply Forall_insert; [done|]. simpl. rewrite invoke_shutdown.
      by apply (Forall_lookup_1 _ _ _ _ H3 Hi).
  - repeat split; try done.
Qed.

Lemma pool_ok_history calls :
  pool_ok zmq_connect
    (foldl (process_step Json_loads zmq_connect) Process_init calls).
Proof.
  induction calls as [|q calls IH] using rev_ind; [apply pool_ok_init|].
  rewrite foldl_snoc. by apply pool_ok_step.
Qed.

(** Whatever the program did, two pairs on record for the same instance
    are the same pair, and the instance was connected to the address
    that the pair gives. *)
Theorem pool_one_instance_per_pair calls (k1 k2 : option str * option Z)
    (i : nat) :
  let p := foldl (process_step Json_loads zmq_connect) Process_init calls in
  client_connections p !! k1 = Some i →
  client_connections p !! k2 = Some i →
  k1 = k2 ∧ ∃ c, clients p !! i = Some (Client_server k1.1 k1.2, c).
Proof.
  cbv zeta. intros Hk1 Hk2.
  destruct (pool_ok_history calls) as (H1 & H2 & _).
  split; [by eapply H2|]. destruct k1. by eapply H1.
Qed.

Lemma client_ok p (address : option str) (port : option Z) :
  zmq_connect (Client_server address port) = Ok tt →
  ∃ i : nat,
    (client zmq_connect p address port).1 = Ok i ∧
    client_connections (client zmq_connect p address port).2
      !! (address, port) = Some i ∧
    ∀ k, k ≠ (address, port) →
      client_connections (client zmq_connect p address port).2 !! k
      = client_connections p !! k.
Proof.
  intros Hc.
  destruct (client_connections p !! (address, port)) as [i|] eqn:Hk.
  - unfold client. rewrite Hk. simpl. by exists i.
  - rewrite (client_new_pair _ _ _ Hk), Hc. simpl. eexists. split; [done|].
    split; [by rewrite lookup_insert_eq|].
    intros k Hne. by rewrite lookup_insert_ne.
Qed.

(** The pool goes by the arguments, not by the address: when the
    address of the local host on a port connects, asking with no
    address and asking for [localhost], on that port, gives two
    instances connected to the same address. *)
Theorem pool_keyed_by_arguments calls (port : option Z) :
  zmq_connect (Client_server None port) = Ok tt →
  let p := foldl (process_step Json_loads zmq_connect) Process_init calls in
  let '(r1, p1) := client zmq_connect p None port in
  let '(r2, p2) := client zmq_connect p1 (Some "localhost"%string) port in
  ∃ i j : nat,
    r1 = Ok i ∧ r2 = Ok j ∧ i ≠ j ∧
    ∃ c1 c2, clients p2 !! i = Some (Client_server None port, c1) ∧
             clients p2 !! j = Some (Client_server None port, c2).
Proof.
  intros Hc. cbv zeta.
  pose proof (pool_ok_history
                (calls ++ [AskClient None port;
                           AskClient (Some "localhost"%string) port])) as Hp2.
  rewrite foldl_app in Hp2. simpl in Hp2.
  set (p := foldl (process_step Json_loads zmq_connect) Process_init calls) in *.
  destruct (client_ok p None port Hc) as (i & Hr1 & Hi1 & _).
  destruct (client zmq_connect p None port) as [r1 p1]. simpl in *.
  destruct (client_ok p1 (Some "localhost"%string) port Hc)
    as (j & Hr2 & Hj & Hother).
  destruct (client zmq_connect p1 (Some "localhost"%string) port) as [r2 p2].
  simpl in *. exists i, j. split; [done|]. split; [done|].
  assert (client_connections p2 !! (None, port) = Some i) as Hi.
  { by rewrite Hother. }
  destruct Hp2 as (H1 & H2 & _). split.
  - intros ->. by specialize (H2 _ _ _ Hi Hj).
  - destruct (H1 _ _ _ Hi) as [_ [c1 Hc1]], (H1 _ _ _ Hj) as [_ [c2 Hc2]].
    exists c1, c2. split; [done|]. exact Hc2.
Qed.

(** Nothing that the module offers stops a receive loop: whatever the
    program did, the exit handler included, every client ever built has
    its flag at [False]. *)
Theorem module_never_stops_a_loop calls :
  Forall (λ sc, shutdown sc.2 = false)
         (clients (foldl (process_step Json_loads zmq_connect)
                         Process_init calls)).
Proof. apply pool_ok_history. Qed.

(** After the exit handler, a pair that was on record gets a client that
    is new, without registrations; the old instance is still there, as
    it was. *)
Theorem client_after_shutdown calls (address : option str) (port : option Z)
    (i : nat) :
  let p := foldl (process_step Json_loads zmq_connect) Process_init calls in
  client_connections p !! (address, port) = Some i →
  let '(r, p') := client zmq_connect (module_shutdown p) address port in
  ∃ j : nat,
    r = Ok j ∧
    j ≠ i ∧
    clients p' !! j = Some (Client_server address port, Client_init) ∧
    clients p' !! i = clients p !! i.
Proof.
  cbv zeta. intros Hi.
  destruct (pool_ok_history calls) as (H1 & _ & _).
  destruct (H1 _ _ _ Hi) as [Hc [c Hcl]].
  pose proof (lookup_lt_Some _ _ _ Hcl) as Hlt.
  rewrite client_new_pair by done. rewrite Hc. simpl.
  eexists. split; [done|]. split; [lia|]. split.
  - by rewrite lookup_app_r, Nat.sub_diag.
  - by rewrite lookup_app_l.
Qed.

End PoolFacts.
(** ** Examples for the properties above *)

Lemma propagate_invokes_registered_example :
  ∃ topic : bytes,
    parse loads_scalar (lit "tick 17") = Ok (topic, Parsed (VInt 17)) ∧
    1%nat ∈ callback_all tick_listener ++ specific_list tick_listener topic ∧
    is_Some (some_alive 1%nat).
Proof.
  apply (propagate_invokes_registered loads_scalar some_alive tick_listener
           (lit "tick 17") 1%nat (Parsed (VInt 17))).
  vm_compute. repeat constructor.
Defined.

Lemma register_then_propagate_example :
  ∃ (c'' : Client) (out : list (output value)),
    propagate loads_scalar all_alive
      (register Client_init (Callable 0) (Some " tick"%string)).2 (lit "tick 17")
      = (Ok tt, c'', out) ∧
    Invoked 0%nat (Parsed (VInt 17)) ∈ out.
Proof.
  destruct (register_then_propagate loads_scalar all_alive Client_init 0%nat
              (Some " tick"%string) (lit "tick 17") (lit "tick")
              (Parsed (VInt 17))) as (c'' & out & H1 & H2 & _).
  - by eexists.
  - vm_compute; reflexivity.
  - right. vm_compute; reflexivity.
  - by exists c'', out.
Defined.

Lemma register_unreachable_topic_example :
  ∃ t : bytes,
    t ≠ lit "a b" ∧
    0%nat ∈ callback_all (register Client_init (Callable 0) None).2 ++
            specific_list (register Client_init (Callable 0) None).2 t.
Proof.
  apply (register_unreachable_topic loads_scalar all_alive
           (register Client_init (Callable 0) None).2 0%nat "a b"%string
           (lit "a b") (lit "tick 17") (Parsed (VInt 17))).
  - vm_compute; reflexivity.
  - right. unfold no_space. apply (bool_decide_unpack _). vm_compute. exact I.
  - vm_compute. repeat constructor.
Defined.

Lemma propagate_twice_example :
  let c' := (propagate loads_scalar some_alive tick_listener (lit "tick 17")).1.2 in
  Forall (λ r, is_Some (some_alive r))
         (callback_all c' ++ specific_list c' (lit "tick")) ∧
  (propagate loads_scalar some_alive c' (lit "tick 18")).1 = (Ok tt, c').
Proof.
  apply (propagate_twice loads_scalar some_alive tick_listener
           (lit "tick 17") (lit "tick 18") (lit "tick")
           (Parsed (VInt 17)) (Parsed (VInt 18)));
    vm_compute; reflexivity.
Defined.

Lemma callback_specific_no_empty_list_example : [0; 1; 3]%nat ≠ [].
Proof.
  apply (callback_specific_no_empty_list loads_scalar tick_history (lit "tick")).
  vm_compute; reflexivity.
Defined.

Lemma run_idle_example :
  run loads_scalar Client_init [mkPoll all_alive (Some (lit "no-separator"))]
  = (Running Client_init, []).
Proof.
  apply (run_idle loads_scalar Client_init); reflexivity.
Defined.

Lemma run_survives_callbacks_example :
  ∃ c' : Client,
    (run loads_scalar tick_listener
       [mkPoll some_alive (Some (lit "tick 17")); mkPoll some_alive None]).1
    = Running c'.
Proof.
  apply (run_survives_callbacks loads_scalar tick_listener).
  - vm_compute; reflexivity.
  - constructor; [|constructor; [|constructor]].
    + intros frame [= <-]. eexists. vm_compute; reflexivity.
    + intros frame [=].
Defined.

Lemma pool_one_instance_per_pair_example :
  (@None str, @None Z) = (None, None) ∧
  ∃ c, clients (foldl (process_step loads_scalar connect_example) Process_init
                  [AskClient None None; AskClient (Some "host"%string) None])
         !! 0%nat
       = Some (Client_server None None, c).
Proof.
  apply (pool_one_instance_per_pair loads_scalar connect_example
           [AskClient None None; AskClient (Some "host"%string) None]
           (None, None) (None, None) 0%nat);
    vm_compute; reflexivity.
Defined.

(** The default port connects; after a refused request for the port -1,
    the two ways of asking for it give the instances 0 and 1. *)
Lemma pool_keyed_by_arguments_example :
  let p := foldl (process_step loads_scalar connect_example) Process_init
             [AskClient None (Some (-1))] in
  let '(r1, p1) := client connect_example p None None in
  let '(r2, p2) := client connect_example p1 (Some "localhost"%string) None in
  ∃ i j : nat,
    r1 = Ok i ∧ r2 = Ok j ∧ i ≠ j ∧
    ∃ c1 c2, clients p2 !! i = Some (Client_server None None, c1) ∧
             clients p2 !! j = Some (Client_server None None, c2).
Proof.
  apply (pool_keyed_by_arguments loads_scalar connect_example
           [AskClient None (Some (-1))] None).
  vm_compute; reflexivity.
Defined.

Lemma client_after_shutdown_example :
  let p := foldl (process_step loads_scalar connect_example) Process_init
             [AskClient None None;
              OnInstance 0 (CallRegister (Callable 0) None)] in
  let '(r, p') := client connect_example (module_shutdown p) None None in
  ∃ j : nat,
    r = Ok j ∧
    j ≠ 0%nat ∧
    clients p' !! j = Some (Client_server None None, Client_init) ∧
    clients p' !! 0%nat = clients p !! 0%nat.
Proof.
  apply (client_after_shutdown loads_scalar connect_example
           [AskClient None None;
            OnInstance 0 (CallRegister (Callable 0) None)] None None 0%nat).
  vm_compute; reflexivity.
Defined.
